(** * Inventory service: records and the photo blobs they reference

    A shallow embedding of the Express inventory service of this repository
    (the plain Express program and its Swagger-documented sibling in
    [main.js]).  Every route handler becomes a function from the server state
    to a new state and a response.  The server state is the pair of globals
    [inventory] and [nextId] together with the files the service keeps on
    disk.

    Conventions of the embedding:
    - JavaScript numbers that hold record identifiers and clock readings are
      integers ([Z]), as they are exactly below 2^53; [parseInt] yields an
      integer or [NaN].
    - Request fields are strings that may be missing ([undefined] is [None]).
    - The disk is a finite map from absolute paths to file contents; writing
      a file and unlinking an existing file succeed.  Directories have no
      entry of their own.  The server starts on whatever files its cache
      directory holds, with an empty inventory.
    - The modules [path], [fs], [multer] and [express] are not part of the
      repository; the few functions used by the handlers are modelled after
      their documented POSIX behaviour.  [res.sendFile] refuses a path
      that is not absolute (the exception becomes a 500 answer), and the
      file sender behind it refuses NUL bytes, [..] segments and dot
      files before it looks for the file.
    - A file in a request is the file object multer hands to the storage
      callbacks: multer keeps the base name of the name the client sent
      and drops a part whose base name is empty ([multer_file]). *)

From Stdlib Require Import ZArith String Ascii Decimal DecimalString Sorted.
From Stdlib Require Import DecimalPos DecimalZ.
From stdpp Require Import gmap strings list fin_maps.

Open Scope string_scope.
Open Scope Z_scope.

(** ** JavaScript values used by the handlers *)

(** Result of [parseInt]: a number, possibly [NaN]. *)
Inductive jsnum :=
  | NaN
  | Num (z : Z).

(** [a === b] on numbers: [NaN] is equal to nothing. *)
Definition strict_eq (a b : jsnum) : bool :=
  match a, b with
  | Num x, Num y => Z.eqb x y
  | _, _ => false
  end.

(** Truthiness of a string: only the empty string is falsy. *)
Definition truthy (s : string) : bool :=
  match s with
  | EmptyString => false
  | String _ _ => true
  end.

(** Truthiness of a value that is a string, [null] or [undefined]. *)
Definition truthy_opt (o : option string) : bool :=
  match o with
  | Some s => truthy s
  | None => false
  end.

(** [o || d]. *)
Definition js_or (o : option string) (d : string) : string :=
  match o with
  | Some s => if truthy s then s else d
  | None => d
  end.

(** Whether the character [c] occurs in [s]. *)
Fixpoint occurs (c : ascii) (s : string) : bool :=
  match s with
  | EmptyString => false
  | String d r => Ascii.eqb d c || occurs c r
  end.

(** Template-literal rendering of an integer. *)
Definition show_Z (z : Z) : string := NilZero.string_of_int (Z.to_int z).

(** [Array.prototype.findIndex]; [None] stands for [-1]. *)
Fixpoint findIndex {A : Type} (p : A → bool) (l : list A) : option nat :=
  match l with
  | [] => None
  | x :: r => if p x then Some 0%nat else S <$> findIndex p r
  end.

(** [Array.prototype.find]; [None] stands for [undefined]. *)
Fixpoint find {A : Type} (p : A → bool) (l : list A) : option A :=
  match l with
  | [] => None
  | x :: r => if p x then Some x else find p r
  end.

(** ** The [path] module (POSIX flavour) *)

Module path.

(** The pieces of a path between separators. *)
Fixpoint segments (s : string) : list string :=
  match s with
  | EmptyString => [EmptyString]
  | String c r =>
      if Ascii.eqb c "/" then EmptyString :: segments r
      else match segments r with
           | seg :: rest => String c seg :: rest
           | [] => [String c EmptyString]
           end
  end.

Definition isAbsolute (p : string) : bool :=
  match p with
  | String c _ => Ascii.eqb c "/"
  | EmptyString => false
  end.

Fixpoint endsWithSep (p : string) : bool :=
  match p with
  | EmptyString => false
  | String c EmptyString => Ascii.eqb c "/"
  | String _ r => endsWithSep r
  end.

(** One step of [normalizeString]; [res] holds the kept segments, last
    segment first. *)
Definition push_segment (allowAboveRoot : bool) (res : list string)
    (seg : string) : list string :=
  if String.eqb seg "" || String.eqb seg "." then res
  else if String.eqb seg ".." then
    match res with
    | last :: rest =>
        if String.eqb last ".."
        then (if allowAboveRoot then ".." :: res else res)
        else rest
    | [] => if allowAboveRoot then [".."] else []
    end
  else seg :: res.

Definition normalizeSegments (allowAboveRoot : bool) (segs : list string)
    : list string :=
  rev (fold_left (push_segment allowAboveRoot) segs []).

Fixpoint joinWith (sep : string) (l : list string) : string :=
  match l with
  | [] => ""
  | [x] => x
  | x :: r => x +:+ sep +:+ joinWith sep r
  end.

Definition normalize (p : string) : string :=
  match p with
  | EmptyString => "."
  | _ =>
      let isAbs := isAbsolute p in
      let trailing := endsWithSep p in
      let q := joinWith "/" (normalizeSegments (negb isAbs) (segments p)) in
      match q with
      | EmptyString => if isAbs then "/" else if trailing then "./" else "."
      | _ =>
          let q := if trailing then q +:+ "/" else q in
          if isAbs then "/" +:+ q else q
      end
  end.

(** [path.join(...parts)]. *)
Definition join (parts : list string) : string :=
  match filter (λ s, truthy s = true) parts with
  | [] => "."
  | ne => normalize (joinWith "/" ne)
  end.

(** The directory names and the file name of [path.resolve(cwd, p)], from
    the root down, for an absolute working directory [cwd]. *)
Definition resolveSegments (cwd p : string) : list string :=
  let full := if isAbsolute p then p else cwd +:+ "/" +:+ p in
  normalizeSegments false (segments full).

(** [path.resolve(cwd, p)]: the absolute file a path given to [fs]
    denotes. *)
Definition resolve (cwd p : string) : string :=
  "/" +:+ joinWith "/" (resolveSegments cwd p).

(** Whether a string contains the path separator. *)
Fixpoint hasSep (s : string) : bool :=
  match s with
  | EmptyString => false
  | String c r => Ascii.eqb c "/" || hasSep r
  end.

End path.

(** ** Data model *)

(** Command-line options ([program.opts()]). *)
Record Options := {
  host : string;
  port : string;
  cache : string
}.

(** What the process is started with: its options, the directory of the
    script ([__dirname]) and the working directory ([process.cwd()]). *)
Record Env := {
  options : Options;
  dirname : string;
  cwd : string
}.

(** One element of the [inventory] array. [photo] is a file name or [null]. *)
Record Item := {
  id : Z;
  inventory_name : string;
  description : string;
  photo : option string
}.

(** The file object multer builds for the file part of a multipart request
    ([originalname] is the base name of the name the client sent), with the
    reading of [Date.now()] taken when the file is named. *)
Record Upload := {
  originalname : string;
  content : list Byte.byte;
  now : Z
}.

(** The file part as the client sends it: the [filename] parameter of its
    header and its bytes, with the clock reading at its arrival. *)
Record FilePart := {
  clientname : string;
  bytes_sent : list Byte.byte;
  received : Z
}.

(** The globals [inventory] and [nextId], and the files on disk. *)
Record State := {
  inventory : list Item;
  nextId : Z;
  disk : gmap string (list Byte.byte)
}.

(** Server start: empty inventory, [nextId = 1], and the files [d] that the
    cache directory holds already (the directory is created only when it
    does not exist). *)
Definition start (d : gmap string (list Byte.byte)) : State :=
  {| inventory := []; nextId := 1; disk := d |}.

(** Server start on a directory without files. *)
Definition init : State := start ∅.

(** An item spread into a new object together with [photo_url]. *)
Record View := {
  view_item : Item;
  view_photo_url : option string
}.

(** The object built by the search handler. *)
Record SearchResult := {
  result_id : Z;
  result_inventory_name : string;
  result_description : string;
  result_photo_url : option string
}.

Inductive Body :=
  | JError (error : string)
  | JItem (message : string) (item : Item)
  | JDeleted (message : string) (n : jsnum)
  | JView (v : View)
  | JList (l : list View)
  | JSearch (r : SearchResult)
  | JFile (contentType : string) (bytes : list Byte.byte)
  | HtmlError (message : string).

Record Response := {
  status : Z;
  body : Body
}.

(** The two programs differ in one expression only: the path from which the
    photo is read. *)
Inductive Variant :=
  | Express
  | Swagger.

(** The requests of the API.  The [file] of a request is the file object
    multer built from its photo part, if it built one. *)
Inductive Request :=
  | PostRegister (inventory_name description : option string)
      (file : option Upload)
  | GetInventory
  | GetItem (n : jsnum)
  | PutItem (n : jsnum) (inventory_name description : option string)
  | GetPhoto (n : jsnum)
  | PutPhoto (n : jsnum) (file : option Upload)
  | DeleteItem (n : jsnum)
  | PostSearch (n : jsnum) (has_photo : option string).

(** ** The [fs] calls of the handlers

    A path handed to [fs] denotes the file it resolves to from the working
    directory. *)

Definition existsSync (e : Env) (d : gmap string (list Byte.byte))
    (p : string) : bool :=
  match d !! path.resolve (cwd e) p with
  | Some _ => true
  | None => false
  end.

Definition unlinkSync (e : Env) (d : gmap string (list Byte.byte))
    (p : string) : gmap string (list Byte.byte) :=
  delete (path.resolve (cwd e) p) d.

Definition writeFile (e : Env) (d : gmap string (list Byte.byte))
    (p : string) (bytes : list Byte.byte) : gmap string (list Byte.byte) :=
  <[path.resolve (cwd e) p := bytes]> d.

Definition readFile (e : Env) (d : gmap string (list Byte.byte))
    (p : string) : option (list Byte.byte) :=
  d !! path.resolve (cwd e) p.

(** ** Upload middleware ([multer.diskStorage]) *)

(** The two characters the multipart parser takes for path separators. *)
Definition isSlash (c : ascii) : bool := Ascii.eqb c "/" || Ascii.eqb c "\".

Fixpoint hasSlash (s : string) : bool :=
  match s with
  | EmptyString => false
  | String c r => isSlash c || hasSlash r
  end.

(** What follows the last separator. *)
Fixpoint afterLastSlash (s : string) : string :=
  match s with
  | EmptyString => EmptyString
  | String c r => if isSlash c || hasSlash r then afterLastSlash r else s
  end.

(** The parser's [basename]: the part after the last [/] or backslash,
    with [.] and [..] turned into the empty name. *)
Definition basename (p : string) : string :=
  let b := afterLastSlash p in
  if String.eqb b "." || String.eqb b ".." then "" else b.

(** What multer makes of a file part: a file object named by the base name,
    or nothing when the base name is empty (the part is skipped and
    [req.file] stays [undefined]). *)
Definition multer_file (part : FilePart) : option Upload :=
  let name := basename (clientname part) in
  if truthy name
  then Some {| originalname := name; content := bytes_sent part;
               now := received part |}
  else None.

(** The [filename] callback:
    [`${Date.now()}-${file.originalname}`]. *)
Definition filename (file : Upload) : string :=
  show_Z (now file) +:+ "-" +:+ originalname file.

(** The [destination] callback: [options.cache]. *)
Definition destination (e : Env) : string := cache (options e).

(** Where disk storage puts a file: [path.join(destination, filename)]. *)
Definition storagePath (e : Env) (name : string) : string :=
  path.join [destination e; name].

(** [upload.single('photo')] on the file object multer built, if any: the
    file is written to disk before the handler runs, and
    [req.file.filename] is its generated name; without a file object
    [req.file] is [undefined].  The name of a file object multer built is
    a base name, so the file goes directly into the cache directory, which
    exists since start, and the write succeeds. *)
Definition upload_single (e : Env) (s : State) (file : option Upload)
    : State * option string :=
  match file with
  | None => (s, None)
  | Some f =>
      let name := filename f in
      ({| inventory := inventory s;
          nextId := nextId s;
          disk := writeFile e (disk s) (storagePath e name) (content f) |},
       Some name)
  end.

(** A file part on its way to the handler: multer builds the file object,
    the storage engine names the file and writes it. *)
Definition receive (e : Env) (s : State) (part : option FilePart)
    : State * option string :=
  upload_single e s (part ≫= multer_file).

(** ** Route handlers *)

Definition has_id (n : jsnum) (i : Item) : bool := strict_eq (Num (id i)) n.

Definition photoUrl (e : Env) (i : Item) : string :=
  "http://" +:+ host (options e) +:+ ":" +:+ port (options e)
  +:+ "/inventory/" +:+ show_Z (id i) +:+ "/photo".

(** [item.photo ? `http://...` : null]. *)
Definition photo_url (e : Env) (i : Item) : option string :=
  if truthy_opt (photo i) then Some (photoUrl e i) else None.

Definition with_photo_url (e : Env) (i : Item) : View :=
  {| view_item := i; view_photo_url := photo_url e i |}.

Definition set_inventory_name (x : string) (i : Item) : Item :=
  {| id := id i; inventory_name := x; description := description i;
     photo := photo i |}.

Definition set_description (x : string) (i : Item) : Item :=
  {| id := id i; inventory_name := inventory_name i; description := x;
     photo := photo i |}.

Definition set_photo (x : option string) (i : Item) : Item :=
  {| id := id i; inventory_name := inventory_name i;
     description := description i; photo := x |}.

Definition item_not_found : Response :=
  {| status := 404; body := JError "Item not found" |}.

(** [POST /register]. *)
Definition post_register (e : Env) (s : State)
    (name desc : option string) (file : option Upload) : State * Response :=
  let '(s, req_file) := upload_single e s file in
  if negb (truthy_opt name) then
    (s, {| status := 400; body := JError "Inventory name is required" |})
  else
    let newItem :=
      {| id := nextId s;
         inventory_name := default "" name;
         description := js_or desc "";
         photo := req_file |} in
    ({| inventory := inventory s ++ [newItem];
        nextId := nextId s + 1;
        disk := disk s |},
     {| status := 201;
        body := JItem "Item registered successfully" newItem |}).

(** [GET /inventory]. *)
Definition get_inventory (e : Env) (s : State) : State * Response :=
  (s, {| status := 200;
         body := JList (map (with_photo_url e) (inventory s)) |}).

(** [GET /inventory/:id]. *)
Definition get_item (e : Env) (s : State) (n : jsnum) : State * Response :=
  match find (has_id n) (inventory s) with
  | None => (s, item_not_found)
  | Some item =>
      (s, {| status := 200; body := JView (with_photo_url e item) |})
  end.

(** [PUT /inventory/:id]. The found object is updated in place. *)
Definition put_item (e : Env) (s : State) (n : jsnum)
    (name desc : option string) : State * Response :=
  match findIndex (has_id n) (inventory s), find (has_id n) (inventory s) with
  | Some k, Some item =>
      let item :=
        match name with
        | Some x => set_inventory_name x item
        | None => item
        end in
      let item :=
        match desc with
        | Some x => set_description x item
        | None => item
        end in
      ({| inventory := <[k := item]> (inventory s);
          nextId := nextId s;
          disk := disk s |},
       {| status := 200; body := JItem "Item updated successfully" item |})
  | _, _ => (s, item_not_found)
  end.

(** The path the photo is read from: [path.join(options.cache, item.photo)]
    in the plain program, [path.join(__dirname, options.cache, item.photo)]
    in the documented one. *)
Definition photoReadPath (v : Variant) (e : Env) (name : string) : string :=
  match v with
  | Express => path.join [cache (options e); name]
  | Swagger => path.join [dirname e; cache (options e); name]
  end.

(** An answer produced by Express itself: an error page. *)
Definition error_page (code : Z) (message : string) : Response :=
  {| status := code; body := HtmlError message |}.

(** The pieces of a string between [/] or backslash. *)
Fixpoint splitSlash (s : string) : list string :=
  match s with
  | EmptyString => [EmptyString]
  | String c r =>
      if isSlash c then EmptyString :: splitSlash r
      else match splitSlash r with
           | seg :: rest => String c seg :: rest
           | [] => [String c EmptyString]
           end
  end.

(** The file sender's test for a [..] segment. *)
Definition hasUpSegment (p : string) : bool :=
  existsb (String.eqb "..") (splitSlash p).

(** A dot file: a segment of more than one character that begins with a
    dot. *)
Definition isDotFile (seg : string) : bool :=
  match seg with
  | String c (String _ _) => Ascii.eqb c "."
  | _ => false
  end.

Definition containsDotFile (p : string) : bool :=
  existsb isDotFile (path.segments (path.normalize p)).

(** The paths [res.sendFile] goes on to look up as a file. *)
Definition sendable (p : string) : bool :=
  path.isAbsolute p && negb (occurs Ascii.zero p) && negb (hasUpSegment p)
  && negb (containsDotFile p) && negb (path.endsWithSep p).

(** [res.sendFile(p)] after the content type was set.  A path that is not
    absolute makes it throw, which Express answers with 500.  The file
    sender answers 400 for a NUL byte, 403 for a [..] segment and 404 for a
    dot file (releases that only look at the last segment for this are more
    permissive); for a path that ends in a separator it looks for the index
    file below it.  Otherwise it sends the bytes of the file. *)
Definition sendFile (e : Env) (s : State) (p : string) : Response :=
  if negb (path.isAbsolute p) then
    error_page 500
      "TypeError: path must be absolute or specify root to res.sendFile"
  else if occurs Ascii.zero p then error_page 400 "Bad Request"
  else if hasUpSegment p then error_page 403 "Forbidden"
  else if containsDotFile p then error_page 404 "Not Found"
  else
    let target :=
      if path.endsWithSep p then path.join [p; "index.html"] else p in
    match readFile e (disk s) target with
    | Some bytes => {| status := 200; body := JFile "image/jpeg" bytes |}
    | None => error_page 404 "Not Found"
    end.

(** [GET /inventory/:id/photo]. *)
Definition get_photo (v : Variant) (e : Env) (s : State) (n : jsnum)
    : State * Response :=
  match find (has_id n) (inventory s) with
  | None => (s, item_not_found)
  | Some item =>
      match photo item with
      | Some name =>
          if negb (truthy name) then
            (s, {| status := 404; body := JError "Photo not found" |})
          else
            let photoPath := photoReadPath v e name in
            if negb (existsSync e (disk s) photoPath) then
              (s, {| status := 404; body := JError "Photo file not found" |})
            else (s, sendFile e s photoPath)
      | None => (s, {| status := 404; body := JError "Photo not found" |})
      end
  end.

(** [if (item.photo) { if (fs.existsSync(p)) fs.unlinkSync(p) }] with
    [p = path.join(options.cache, item.photo)]. *)
Definition remove_photo (e : Env) (d : gmap string (list Byte.byte))
    (item : Item) : gmap string (list Byte.byte) :=
  match photo item with
  | Some name =>
      if truthy name then
        let p := path.join [cache (options e); name] in
        if existsSync e d p then unlinkSync e d p else d
      else d
  | None => d
  end.

(** [PUT /inventory/:id/photo]. *)
Definition put_photo (e : Env) (s : State) (n : jsnum)
    (file : option Upload) : State * Response :=
  let '(s, req_file) := upload_single e s file in
  match findIndex (has_id n) (inventory s), find (has_id n) (inventory s) with
  | Some k, Some item =>
      let d := remove_photo e (disk s) item in
      let item := set_photo req_file item in
      ({| inventory := <[k := item]> (inventory s);
          nextId := nextId s;
          disk := d |},
       {| status := 200; body := JItem "Photo updated successfully" item |})
  | _, _ => (s, item_not_found)
  end.

(** [DELETE /inventory/:id]. [inventory.splice(itemIndex, 1)] removes the
    element at the found index. *)
Definition delete_item (e : Env) (s : State) (n : jsnum) : State * Response :=
  match findIndex (has_id n) (inventory s) with
  | None => (s, item_not_found)
  | Some itemIndex =>
      match inventory s !! itemIndex with
      | Some item =>
          let d := remove_photo e (disk s) item in
          ({| inventory := delete itemIndex (inventory s);
              nextId := nextId s;
              disk := d |},
           {| status := 200;
              body := JDeleted "Item deleted successfully" n |})
      | None => (s, item_not_found)
      end
  end.

(** [POST /search]. *)
Definition post_search (e : Env) (s : State) (n : jsnum)
    (has_photo : option string) : State * Response :=
  let hasPhoto :=
    match has_photo with
    | Some x => String.eqb x "true"
    | None => false
    end in
  match find (has_id n) (inventory s) with
  | None => (s, item_not_found)
  | Some item =>
      let description0 := description item in
      let description1 :=
        if hasPhoto && truthy_opt (photo item)
        then description0 +:+ " [Фото: " +:+ photoUrl e item +:+ "]"
        else description0 in
      (s, {| status := 200;
             body := JSearch
               {| result_id := id item;
                  result_inventory_name := inventory_name item;
                  result_description := description1;
                  result_photo_url := photo_url e item |} |})
  end.

(** The server: one request, one handler. *)
Definition handle (v : Variant) (e : Env) (s : State) (r : Request)
    : State * Response :=
  match r with
  | PostRegister name desc file => post_register e s name desc file
  | GetInventory => get_inventory e s
  | GetItem n => get_item e s n
  | PutItem n name desc => put_item e s n name desc
  | GetPhoto n => get_photo v e s n
  | PutPhoto n file => put_photo e s n file
  | DeleteItem n => delete_item e s n
  | PostSearch n has_photo => post_search e s n has_photo
  end.

(** Requests are served one after the other; the responses are collected in
    order. *)
Fixpoint serve (v : Variant) (e : Env) (s : State) (rs : list Request)
    : State * list Response :=
  match rs with
  | [] => (s, [])
  | r :: rest =>
      let '(s1, resp) := handle v e s r in
      let '(s2, resps) := serve v e s1 rest in
      (s2, resp :: resps)
  end.

(** The states the server can be in. *)
Definition reachable (v : Variant) (e : Env) (s : State) : Prop :=
  ∃ d rs, s = (serve v e (start d) rs).1.

(** ** Properties stated about the service *)

(** The id a response hands out: only the 201 answer of the register route
    carries a newly allocated identifier. *)
Definition created_id (r : Response) : option Z :=
  match body r with
  | JItem _ item => if Z.eqb (status r) 201 then Some (id item) else None
  | _ => None
  end.

(** The identifiers handed out by a run, in order. *)
Definition created_ids (rs : list Response) : list Z :=
  omap created_id rs.

(** The file on disk in which the blob called [name] is stored. *)
Definition blobFile (e : Env) (name : string) : string :=
  path.resolve (cwd e) (storagePath e name).

(** The file on disk from which the photo route reads the blob [name]. *)
Definition readBlobFile (v : Variant) (e : Env) (name : string) : string :=
  path.resolve (cwd e) (photoReadPath v e name).



(** A cache directory that holds a file when the server starts. *)
Definition used_directory : gmap string (list Byte.byte) :=
  {[ "/var/cache/inventory/1600000000000-old.jpg" := [Byte.x4f] ]}.



(** Shape of the states the server passes through. *)
Record wf (s : State) : Prop := {
  wf_ids : Forall (λ i, 1 ≤ id i < nextId s) (inventory s);
  wf_nodup : NoDup (id <$> inventory s);
  wf_photos :
    Forall (λ i, ∀ name, photo i = Some name → truthy name = true)
           (inventory s);
  wf_next : 1 ≤ nextId s
}.

(** The answer expected from the search route for a found record: the
    stored fields, with the photo reference appended to the description when
    the flag is the string [true] and the record has a photo. *)
Definition search_result (e : Env) (item : Item)
    (has_photo : option string) : SearchResult :=
  {| result_id := id item;
     result_inventory_name := inventory_name item;
     result_description :=
       if bool_decide (has_photo = Some "true") && truthy_opt (photo item)
       then description item +:+ " [Фото: " +:+ photoUrl e item +:+ "]"
       else description item;
     result_photo_url := photo_url e item |}.


(** A segment that names a directory entry: not empty, not [.], not [..],
    and without separator. *)
Definition plain_segment (seg : string) : Prop :=
  seg ≠ "" ∧ seg ≠ "." ∧ seg ≠ ".." ∧ path.hasSep seg = false.

(** What the kept segments of a relative path can be: entries or [..]. *)
Definition kept_segment (seg : string) : Prop :=
  seg ≠ "" ∧ seg ≠ "." ∧ path.hasSep seg = false.

(** A path lies inside the cache directory when, resolved, it continues the
    resolved cache directory. *)
Definition inside_cache (e : Env) (p : string) : Prop :=
  ∃ rest, rest ≠ []
    ∧ path.resolveSegments (cwd e) p
      = (path.resolveSegments (cwd e) (cache (options e)) ++ rest)%list.

(** What is expected of the generated blob name: no separator, no
    parent-directory segment, and a storage path inside the cache
    directory. *)
Definition store_name_claim (e : Env) (f : Upload) : Prop :=
  path.hasSep (filename f) = false
  ∧ ¬ (".." ∈ path.segments (filename f))
  ∧ inside_cache e (storagePath e (filename f)).

(** ** Sample requests and states *)

(** A photo sent with a request. *)
Definition laptop_upload : Upload :=
  {| originalname := "laptop.jpg"; content := [Byte.x4a; Byte.x46];
     now := 1700000000000 |}.

(** A server started with an absolute cache directory. *)
Definition local_env : Env :=
  {| options := {| host := "localhost"; port := "3000";
                   cache := "/var/cache/inventory" |};
     dirname := "/srv/app";
     cwd := "/srv/app" |}.

(** The record of the first registration, when no photo is sent. *)
Definition laptop : Item :=
  {| id := 1; inventory_name := "Laptop Asus";
     description := "Gaming laptop"; photo := None |}.

(** The state after registering one record without photo. *)
Definition one_laptop : State :=
  (serve Express local_env init
     [PostRegister (Some "Laptop Asus") (Some "Gaming laptop") None]).1.

(** The state after registering one record with a photo. *)
Definition one_photo : State :=
  (serve Express local_env init
     [PostRegister (Some "Laptop Asus") (Some "Gaming laptop")
        (Some laptop_upload)]).1.

(** A second upload named like the first one and received within the same
    millisecond. *)
Definition same_ms_upload : Upload :=
  {| originalname := "laptop.jpg"; content := [Byte.x59];
     now := 1700000000000 |}.

(** The same photo name, received a second later. *)
Definition later_upload : Upload :=
  {| originalname := "laptop.jpg"; content := [Byte.x59];
     now := 1700000001000 |}.

(** The documented program started from its own directory with a relative
    cache directory. *)
Definition script_dir_env : Env :=
  {| options := {| host := "localhost"; port := "3000"; cache := "./cache" |};
     dirname := "/srv/app";
     cwd := "/srv/app" |}.

(** The plain program started with the same relative cache directory,
    after registering one record with a photo. *)
Definition one_photo_relative : State :=
  (serve Express script_dir_env init
     [PostRegister (Some "Laptop Asus") (Some "Gaming laptop")
        (Some laptop_upload)]).1.



(** A file part whose name points out of any directory it is put in. *)
Definition traversal_part : FilePart :=
  {| clientname := "../../../etc/passwd"; bytes_sent := [Byte.x72];
     received := 1700000000000 |}.

(** ** Further notions used to describe runs *)

(** The id a response reports as deleted: the 200 answer of the delete
    route echoes the id of the request. *)
Definition deleted_id (r : Response) : option Z :=
  match body r with
  | JDeleted _ (Num z) => if Z.eqb (status r) 200 then Some z else None
  | _ => None
  end.

(** The identifiers reported as deleted by a run, in order. *)
Definition deleted_ids (rs : list Response) : list Z :=
  omap deleted_id rs.

(** The file part of a request, if it has one. *)
Definition uploaded_file (r : Request) : option Upload :=
  match r with
  | PostRegister _ _ file => file
  | PutPhoto _ file => file
  | _ => None
  end.

(** Along the run, every uploaded file gets a storage location at which no
    file exists yet. *)
Fixpoint fresh_uploads (v : Variant) (e : Env) (s : State)
    (rs : list Request) : bool :=
  match rs with
  | [] => true
  | r :: rest =>
      match uploaded_file r with
      | Some f => negb (existsSync e (disk s) (storagePath e (filename f)))
      | None => true
      end
      && fresh_uploads v e (handle v e s r).1 rest
  end.

(** The files in which the photos of the records are stored, in inventory
    order. *)
Definition blob_files (e : Env) (l : list Item) : list string :=
  omap (λ i, blobFile e <$> photo i) l.

(** The files a request may write or unlink: the storage location of its
    upload, and the blob of the record whose photo it replaces or which it
    deletes. *)
Definition touched_files (e : Env) (s : State) (r : Request) : list string :=
  (match uploaded_file r with
   | Some f => [blobFile e (filename f)]
   | None => []
   end
   ++
   match r with
   | PutPhoto n _ | DeleteItem n =>
       match find (has_id n) (inventory s) with
       | Some item =>
           match photo item with
           | Some name => [blobFile e name]
           | None => []
           end
       | None => []
       end
   | _ => []
   end)%list.

(** Whether the request [r], handled in state [s], can change what is found
    under the id [m]: a registration that would hand out [m], or an update,
    photo replacement or deletion addressed to [m]. *)
Definition concerns (s : State) (r : Request) (m : jsnum) : bool :=
  match r with
  | PostRegister _ _ _ => strict_eq (Num (nextId s)) m
  | PutItem n _ _ | PutPhoto n _ | DeleteItem n => strict_eq n m
  | _ => false
  end.

(** Every photo of a record has its file on disk, and no two records share
    a file. *)
Definition blobs_present (e : Env) (s : State) : Prop :=
  NoDup (blob_files e (inventory s))
  ∧ Forall (λ p, is_Some (disk s !! p)) (blob_files e (inventory s)).

(** The files sent along with the requests of a run. *)
Definition uploads_of (rs : list Request) : list Upload :=
  omap uploaded_file rs.

#[global] Arguments path.join : simpl never.
#[global] Arguments path.resolve : simpl never.
#[global] Arguments show_Z : simpl never.

(** Case analysis on whether the id of a request is known. *)
Ltac case_find s n :=
  let item := fresh "item" in
  let Hfind := fresh "Hfind" in
  destruct (find (has_id n) (inventory s)) as [item|] eqn:Hfind.

(** ** Lemmas on [find] and [findIndex] *)

Section Find.
Context {A : Type} (p : A → bool).

Lemma findIndex_Some (l : list A) (k : nat) :
  findIndex p l = Some k →
  ∃ x, l !! k = Some x ∧ p x = true ∧ find p l = Some x.
Proof.
  revert k. induction l as [|a l IH]; intros k; simpl; [done|].
  destruct (p a) eqn:Hp.
  - intros [= <-]. exists a. done.
  - destruct (findIndex p l) as [j|]; simpl; [|done].
    intros [= <-]. destruct (IH j eq_refl) as (x & ? & ? & ?).
    exists x. done.
Qed.

Lemma find_Some (l : list A) (x : A) :
  find p l = Some x →
  ∃ k, findIndex p l = Some k ∧ l !! k = Some x ∧ p x = true.
Proof.
  induction l as [|a l IH]; simpl; [done|].
  destruct (p a) eqn:Hp.
  - intros [= <-]. by exists 0%nat.
  - intros H. destruct (IH H) as (k & -> & ? & ?). by exists (S k).
Qed.

Lemma find_None_findIndex (l : list A) :
  find p l = None → findIndex p l = None.
Proof.
  induction l as [|a l IH]; simpl; [done|].
  destruct (p a); [done|]. intros H. by rewrite IH.
Qed.

Lemma find_elem_of (l : list A) (x : A) :
  find p l = Some x → x ∈ l ∧ p x = true.
Proof.
  intros H. destruct (find_Some _ _ H) as (k & _ & Hk & Hp).
  split; [|done]. by eapply list_elem_of_lookup_2.
Qed.

Lemma find_None (l : list A) (x : A) :
  find p l = None → x ∈ l → p x = false.
Proof.
  induction l as [|a l IH]; simpl; [by intros _ ?%elem_of_nil|].
  destruct (p a) eqn:Hp; [done|].
  intros H [->|Hin]%elem_of_cons; auto.
Qed.

(** Writing to the found element keeps it the found element as long as it
    still satisfies the predicate. *)
Lemma find_insert (l : list A) (k : nat) (y : A) :
  findIndex p l = Some k → p y = true →
  find p (<[k := y]> l) = Some y ∧ findIndex p (<[k := y]> l) = Some k.
Proof.
  revert k. induction l as [|a l IH]; intros k; simpl; [done|].
  destruct (p a) eqn:Hp.
  - intros [= <-] Hy. simpl. by rewrite Hy.
  - destruct (findIndex p l) as [j|] eqn:Hj; simpl; [|done].
    intros [= <-] Hy. simpl. rewrite Hp.
    destruct (IH j eq_refl Hy) as [-> ->]. done.
Qed.
End Find.

Lemma has_id_true (n : jsnum) (i : Item) :
  has_id n i = true ↔ n = Num (id i).
Proof.
  unfold has_id, strict_eq. destruct n as [|z]; [done|].
  rewrite Z.eqb_eq. split; [by intros ->|by intros [= ->]].
Qed.

(** With pairwise different ids, removing the found element leaves no
    element with that id. *)
Lemma find_delete_unique (n : jsnum) (l : list Item) (k : nat) :
  NoDup (id <$> l) → findIndex (has_id n) l = Some k →
  find (has_id n) (delete k l) = None.
Proof.
  revert k. induction l as [|a l IH]; intros k; simpl; [done|].
  rewrite NoDup_cons. intros [Hnotin Hnd].
  destruct (has_id n a) eqn:Hp.
  - intros [= <-]. simpl.
    destruct (find (has_id n) l) as [y|] eqn:Hy; [|done].
    apply find_elem_of in Hy as [Hin Hpy].
    apply has_id_true in Hp, Hpy. exfalso. apply Hnotin.
    assert (id a = id y) as -> by congruence.
    by apply list_elem_of_fmap_2.
  - destruct (findIndex (has_id n) l) as [j|] eqn:Hj; simpl; [|done].
    intros [= <-]. simpl. rewrite Hp. by apply IH.
Qed.

(** ** Lemmas on the upload middleware *)

Lemma truthy_app_r (a b : string) : truthy b = true → truthy (a +:+ b) = true.
Proof. destruct a; simpl; [done|by intros _]. Qed.

Lemma filename_truthy (f : Upload) : truthy (filename f) = true.
Proof. unfold filename. by apply truthy_app_r. Qed.

Lemma upload_single_inventory e s file :
  inventory (upload_single e s file).1 = inventory s.
Proof. by destruct file. Qed.

Lemma upload_single_nextId e s file :
  nextId (upload_single e s file).1 = nextId s.
Proof. by destruct file. Qed.

Lemma upload_single_name e s file :
  (upload_single e s file).2 = filename <$> file.
Proof. by destruct file. Qed.

Lemma upload_single_disk e s file :
  disk (upload_single e s file).1 =
  match file with
  | Some f => <[blobFile e (filename f) := content f]> (disk s)
  | None => disk s
  end.
Proof. by destruct file. Qed.


(** ** The handlers, case by case *)

Lemma put_item_missing e s n name desc :
  find (has_id n) (inventory s) = None →
  put_item e s n name desc = (s, item_not_found).
Proof.
  intros H. unfold put_item. rewrite H.
  by destruct (findIndex (has_id n) (inventory s)).
Qed.

Lemma put_item_found e s n name desc item :
  find (has_id n) (inventory s) = Some item →
  ∃ k, findIndex (has_id n) (inventory s) = Some k
       ∧ inventory s !! k = Some item
       ∧ put_item e s n name desc =
         let item' :=
           {| id := id item;
              inventory_name := default (inventory_name item) name;
              description := default (description item) desc;
              photo := photo item |} in
         ({| inventory := <[k := item']> (inventory s);
             nextId := nextId s;
             disk := disk s |},
          {| status := 200;
             body := JItem "Item updated successfully" item' |}).
Proof.
  intros H. destruct (find_Some _ _ _ H) as (k & Hk & Hlk & _).
  exists k. split; [done|]. split; [done|].
  unfold put_item. rewrite H, Hk. destruct item, name, desc; done.
Qed.

Lemma put_photo_missing e s n file :
  find (has_id n) (inventory s) = None →
  put_photo e s n file = ((upload_single e s file).1, item_not_found).
Proof.
  intros H. unfold put_photo.
  destruct (upload_single e s file) as [s1 req_file] eqn:Hup.
  assert (inventory s1 = inventory s) as Hinv.
  { by rewrite <-(upload_single_inventory e s file), Hup. }
  rewrite Hinv, H. by destruct (findIndex (has_id n) (inventory s)).
Qed.

Lemma put_photo_found e s n file item :
  find (has_id n) (inventory s) = Some item →
  ∃ k, findIndex (has_id n) (inventory s) = Some k
       ∧ inventory s !! k = Some item
       ∧ put_photo e s n file =
         let item' := set_photo (filename <$> file) item in
         ({| inventory := <[k := item']> (inventory s);
             nextId := nextId s;
             disk := remove_photo e (disk (upload_single e s file).1) item |},
          {| status := 200;
             body := JItem "Photo updated successfully" item' |}).
Proof.
  intros H. destruct (find_Some _ _ _ H) as (k & Hk & Hlk & _).
  exists k. split; [done|]. split; [done|].
  unfold put_photo.
  pose proof (upload_single_inventory e s file) as Hinv.
  pose proof (upload_single_nextId e s file) as Hnext.
  pose proof (upload_single_name e s file) as Hname.
  destruct (upload_single e s file) as [s1 req_file]. simpl in *.
  by rewrite Hinv, H, Hk, Hnext, Hname.
Qed.

Lemma delete_item_missing e s n :
  find (has_id n) (inventory s) = None →
  delete_item e s n = (s, item_not_found).
Proof.
  intros H. unfold delete_item. by rewrite (find_None_findIndex _ _ H).
Qed.

Lemma delete_item_found e s n item :
  find (has_id n) (inventory s) = Some item →
  ∃ k, findIndex (has_id n) (inventory s) = Some k
       ∧ inventory s !! k = Some item
       ∧ delete_item e s n =
         ({| inventory := delete k (inventory s);
             nextId := nextId s;
             disk := remove_photo e (disk s) item |},
          {| status := 200;
             body := JDeleted "Item deleted successfully" n |}).
Proof.
  intros H. destruct (find_Some _ _ _ H) as (k & Hk & Hlk & _).
  exists k. split; [done|]. split; [done|].
  unfold delete_item. by rewrite Hk, Hlk.
Qed.

(** ** The state shape is kept by every handler *)

Lemma wf_start d : wf (start d).
Proof.
  split; simpl;
    [by apply Forall_nil|by apply NoDup_nil|by apply Forall_nil|lia].
Qed.

Lemma wf_init : wf init.
Proof. apply wf_start. Qed.

Lemma wf_ext (s s' : State) :
  inventory s' = inventory s → nextId s' = nextId s → wf s → wf s'.
Proof. intros Hi Hn [? ? ? ?]. split; by rewrite ?Hi, ?Hn. Qed.

Lemma wf_insert (s : State) d (k : nat) (item item' : Item) :
  wf s → inventory s !! k = Some item → id item' = id item →
  (∀ name, photo item' = Some name → truthy name = true) →
  wf {| inventory := <[k := item']> (inventory s);
        nextId := nextId s; disk := d |}.
Proof.
  intros [Hids Hnd Hph Hnext] Hk Hid Hphoto. split; simpl; [| | |done].
  - apply Forall_insert; [done|]. rewrite Hid.
    by apply (proj1 (Forall_lookup _ _) Hids k item).
  - rewrite list_fmap_insert, Hid.
    rewrite list_insert_id; [done|]. by rewrite list_lookup_fmap, Hk.
  - by apply Forall_insert.
Qed.

Lemma wf_delete (s : State) d (k : nat) :
  wf s →
  wf {| inventory := delete k (inventory s); nextId := nextId s; disk := d |}.
Proof.
  intros [Hids Hnd Hph Hnext]. split; simpl; [| | |done].
  - by apply Forall_delete.
  - eapply sublist_NoDup; [exact Hnd|].
    apply fmap_sublist, sublist_delete.
  - by apply Forall_delete.
Qed.

Lemma wf_append (s : State) d (item : Item) :
  wf s → id item = nextId s →
  (∀ name, photo item = Some name → truthy name = true) →
  wf {| inventory := inventory s ++ [item];
        nextId := nextId s + 1; disk := d |}.
Proof.
  intros [Hids Hnd Hph Hnext] Hid Hphoto. split; simpl; [| | |lia].
  - apply Forall_app. split.
    + eapply Forall_impl; [exact Hids|]. simpl. intros; lia.
    + apply Forall_singleton. lia.
  - rewrite fmap_app. apply NoDup_app. split; [done|]. split.
    + intros x Hx [->|[]%elem_of_nil]%elem_of_cons.
      apply list_elem_of_fmap in Hx as (y & Hy & Hin).
      pose proof (proj1 (Forall_forall _ _) Hids y Hin) as Hb. simpl in Hb.
      lia.
    + apply NoDup_singleton.
  - apply Forall_app. split; [done|]. by apply Forall_singleton.
Qed.

Lemma wf_handle v e s r : wf s → wf (handle v e s r).1.
Proof.
  intros Hwf. destruct r as [name desc file| |n|n name desc|n|n file|n|n flag];
    simpl.
  - unfold post_register.
    pose proof (upload_single_inventory e s file) as Hinv.
    pose proof (upload_single_nextId e s file) as Hnext.
    pose proof (upload_single_name e s file) as Hname.
    destruct (upload_single e s file) as [s1 req_file]. simpl in *.
    assert (wf s1) as Hwf1 by by eapply wf_ext.
    destruct (truthy_opt name); simpl; [|done].
    apply wf_append; [done|done|]. simpl. intros name0.
    rewrite Hname. destruct file; [|done]. intros [= <-].
    apply filename_truthy.
  - done.
  - unfold get_item. by case_find s n.
  - case_find s n.
    + destruct (put_item_found e s n name desc item Hfind)
        as (k & _ & Hk & ->). simpl.
      eapply wf_insert; [done|done|done|]. simpl.
      by apply (proj1 (Forall_lookup _ _) (wf_photos _ Hwf) k item).
    + by rewrite put_item_missing.
  - unfold get_photo. case_find s n; [|done].
    destruct (photo item) as [name|]; [|done].
    destruct (truthy name); simpl; [|done].
    by destruct (existsSync _ _ _).
  - case_find s n.
    + destruct (put_photo_found e s n file item Hfind)
        as (k & _ & Hk & ->). simpl.
      eapply wf_insert; [done|done|done|]. simpl. intros name.
      destruct file; [|done]. intros [= <-]. apply filename_truthy.
    + rewrite put_photo_missing by done. simpl.
      eapply wf_ext; [apply upload_single_inventory
                     |apply upload_single_nextId|done].
  - case_find s n.
    + destruct (delete_item_found e s n item Hfind) as (k & _ & Hk & ->).
      simpl. by apply wf_delete.
    + by rewrite delete_item_missing.
  - unfold post_search. by case_find s n.
Qed.

Lemma wf_serve v e s rs : wf s → wf (serve v e s rs).1.
Proof.
  revert s. induction rs as [|r rs IH]; intros s Hwf; simpl; [done|].
  pose proof (wf_handle v e s r Hwf) as H1.
  destruct (handle v e s r) as [s1 resp]. simpl in H1.
  specialize (IH s1 H1). by destruct (serve v e s1 rs).
Qed.

Lemma reachable_wf v e s : reachable v e s → wf s.
Proof. intros (d & rs & ->). apply wf_serve, wf_start. Qed.

(** ** Sending a file *)

(** [res.sendFile] answers with the file or with an error page. *)
Lemma sendFile_cases e s p :
  (∃ bytes, readFile e (disk s) p = Some bytes
     ∧ sendFile e s p = {| status := 200; body := JFile "image/jpeg" bytes |})
  ∨ (sendable p = false
     ∧ ∃ bytes, sendFile e s p
         = {| status := 200; body := JFile "image/jpeg" bytes |})
  ∨ (∃ code message, sendFile e s p = error_page code message).
Proof.
  unfold sendFile, sendable.
  destruct (path.isAbsolute p); simpl;
    [|right; right; do 2 eexists; reflexivity].
  destruct (occurs Ascii.zero p); simpl;
    [right; right; do 2 eexists; reflexivity|].
  destruct (hasUpSegment p); simpl;
    [right; right; do 2 eexists; reflexivity|].
  destruct (containsDotFile p); simpl;
    [right; right; do 2 eexists; reflexivity|].
  destruct (path.endsWithSep p); simpl.
  - destruct (readFile e (disk s) (path.join [p; "index.html"])) as [bytes|];
      [right; left; split; [done|by eexists]|].
    right; right; do 2 eexists; reflexivity.
  - destruct (readFile e (disk s) p) as [bytes|];
      [left; by eexists|right; right; do 2 eexists; reflexivity].
Qed.

(** On a path that passes its checks it sends the file the path denotes. *)
Lemma sendFile_sendable e s p :
  sendable p = true →
  sendFile e s p
  = match readFile e (disk s) p with
    | Some bytes => {| status := 200; body := JFile "image/jpeg" bytes |}
    | None => error_page 404 "Not Found"
    end.
Proof.
  unfold sendable, sendFile. intros H.
  repeat (apply andb_prop in H as [H ?]).
  rewrite H. simpl.
  destruct (occurs Ascii.zero p); [done|].
  destruct (hasUpSegment p); [done|].
  destruct (containsDotFile p); [done|].
  by destruct (path.endsWithSep p).
Qed.

(** It never answers like a handler that created a record. *)
Lemma sendFile_created e s p : created_id (sendFile e s p) = None.
Proof.
  destruct (sendFile_cases e s p)
    as [(b & _ & ->)|[(_ & b & ->)|(c & m & ->)]]; try done.
Qed.

(** Nor like the delete route. *)
Lemma sendFile_deleted e s p : deleted_id (sendFile e s p) = None.
Proof.
  destruct (sendFile_cases e s p)
    as [(b & _ & ->)|[(_ & b & ->)|(c & m & ->)]]; try done.
Qed.

(** ** Identifier allocation *)

(** A handler either hands out [nextId] and increments it, or hands out
    nothing and leaves it alone. *)
Lemma handle_created v e s r :
  (created_id (handle v e s r).2 = Some (nextId s)
   ∧ nextId (handle v e s r).1 = nextId s + 1)
  ∨ (created_id (handle v e s r).2 = None
     ∧ nextId (handle v e s r).1 = nextId s).
Proof.
  destruct r as [name desc file| |n|n name desc|n|n file|n|n flag]; simpl.
  - unfold post_register.
    pose proof (upload_single_nextId e s file) as Hnext.
    destruct (upload_single e s file) as [s1 req_file]. simpl in *.
    destruct (truthy_opt name); simpl; [left|right]; by rewrite Hnext.
  - by right.
  - right. unfold get_item. by case_find s n.
  - right. case_find s n.
    + by destruct (put_item_found e s n name desc item Hfind)
        as (k & _ & _ & ->).
    + by rewrite put_item_missing.
  - right. unfold get_photo. case_find s n; [|done].
    destruct (photo item) as [name|]; [|done].
    destruct (truthy name); simpl; [|done].
    destruct (existsSync _ _ _); simpl; [|done].
    split; [apply sendFile_created|done].
  - right. case_find s n.
    + by destruct (put_photo_found e s n file item Hfind)
        as (k & _ & _ & ->).
    + rewrite put_photo_missing by done. simpl.
      split; [done|]. apply upload_single_nextId.
  - right. case_find s n.
    + by destruct (delete_item_found e s n item Hfind) as (k & _ & _ & ->).
    + by rewrite delete_item_missing.
  - right. unfold post_search. by case_find s n.
Qed.

Lemma serve_created_ids v e s rs :
  let ids := created_ids (serve v e s rs).2 in
  ids = seqZ (nextId s) (Z.of_nat (length ids))
  ∧ nextId (serve v e s rs).1 = nextId s + Z.of_nat (length ids).
Proof.
  revert s. induction rs as [|r rs IH]; intros s; simpl.
  - split; [done|lia].
  - pose proof (handle_created v e s r) as Hc.
    destruct (handle v e s r) as [s1 resp]. simpl in Hc.
    specialize (IH s1). destruct (serve v e s1 rs) as [s2 resps].
    simpl in *. unfold created_ids in *. simpl.
    destruct IH as [IH1 IH2].
    destruct Hc as [[-> Hn]|[-> Hn]]; simpl.
    + split; [|lia]. rewrite seqZ_cons by lia. f_equal.
      rewrite IH1 at 1. f_equal; lia.
    + split; [|lia]. by rewrite <-Hn.
Qed.

Lemma seqZ_sorted (n : nat) (m : Z) :
  StronglySorted Z.lt (seqZ m (Z.of_nat n)).
Proof.
  revert m. induction n as [|n IH]; intros m.
  - rewrite seqZ_nil by lia. constructor.
  - rewrite seqZ_cons by lia. constructor.
    + replace (Z.pred (Z.of_nat (S n))) with (Z.of_nat n) by lia. apply IH.
    + apply Forall_seqZ. intros; lia.
Qed.

(** C4. Along every run of the server from its start, whatever files the
    cache directory holds and whatever the requests are (creations,
    deletions or any other), the identifiers handed out are 1, 2, 3, ... in
    this order: each one is a positive integer strictly greater than all
    earlier ones, the first is 1, and none is handed out twice, also after
    the record that carried it was deleted. *)
Theorem allocator_ids_strictly_increasing (v : Variant) (e : Env)
    (d : gmap string (list Byte.byte)) (rs : list Request) :
  let ids := created_ids (serve v e (start d) rs).2 in
  ids = seqZ 1 (Z.of_nat (length ids))
  ∧ StronglySorted Z.lt ids
  ∧ NoDup ids
  ∧ Forall (λ i, 1 ≤ i) ids
  ∧ (ids = [] ∨ head ids = Some 1).
Proof.
  intros ids.
  destruct (serve_created_ids v e (start d) rs) as [Hids _].
  fold ids in Hids.
  simpl in Hids. split; [done|]. rewrite Hids.
  split; [apply seqZ_sorted|]. split; [apply NoDup_seqZ|].
  split; [apply Forall_seqZ; intros; lia|].
  destruct (length ids) as [|k]; [by left|right].
  by rewrite seqZ_cons by lia.
Qed.

(** ** Creation *)

Lemma js_or_default (o : option string) : js_or o "" = default "" o.
Proof. destruct o as [[|c s]|]; done. Qed.

(** C3. The register route answers 400 exactly when the name is empty
    (missing or the empty string) and then adds no record.  Otherwise it
    answers 201 with a record that has the next identifier, the given name,
    the given description (the empty string when none was sent) and a photo
    exactly when a file was sent; this record is appended at the end of the
    inventory and the identifier counter advances by one. *)
Theorem create_spec (v : Variant) (e : Env) (s : State)
    (name desc : option string) (file : option Upload) :
  let r := handle v e s (PostRegister name desc file) in
  (status r.2 = 400 ↔ truthy_opt name = false)
  ∧ if truthy_opt name then
      ∃ x, name = Some x
        ∧ let item :=
            {| id := nextId s;
               inventory_name := x;
               description := default "" desc;
               photo := filename <$> file |} in
          r.2 = {| status := 201;
                   body := JItem "Item registered successfully" item |}
          ∧ inventory r.1 = (inventory s ++ [item])%list
          ∧ nextId r.1 = nextId s + 1
          ∧ (is_Some (photo item) ↔ is_Some file)
    else
      r.2 = {| status := 400; body := JError "Inventory name is required" |}
      ∧ inventory r.1 = inventory s
      ∧ nextId r.1 = nextId s.
Proof.
  simpl. unfold post_register.
  pose proof (upload_single_inventory e s file) as Hinv.
  pose proof (upload_single_nextId e s file) as Hnext.
  pose proof (upload_single_name e s file) as Hname.
  destruct (upload_single e s file) as [s1 req_file]. simpl in *.
  destruct name as [[|c x]|]; simpl; try by (split; [done|]).
  split; [split; done|]. eexists. split; [done|].
  rewrite Hinv, Hnext, Hname, js_or_default. repeat split; try done.
  - intros [? H]. destruct file; [by eexists|done].
  - intros [? ->]. by eexists.
Qed.

Lemma post_register_empty e s name desc file :
  truthy_opt name = false →
  post_register e s name desc file =
  ((upload_single e s file).1,
   {| status := 400; body := JError "Inventory name is required" |}).
Proof.
  intros H. unfold post_register.
  destruct (upload_single e s file) as [s1 req_file]. by rewrite H.
Qed.

(** C7. A register request with an empty name is answered 400, adds no
    record and consumes no identifier: whatever register request comes next
    is answered with the same identifier (or the same refusal) as if the
    failed request had never been made.  When the failed request carried no
    file, the whole state is unchanged. *)
Theorem create_empty_name_no_effect (v : Variant) (e : Env) (s : State)
    (name desc : option string) (file : option Upload)
    (Hempty : truthy_opt name = false) :
  let r := handle v e s (PostRegister name desc file) in
  status r.2 = 400
  ∧ inventory r.1 = inventory s
  ∧ nextId r.1 = nextId s
  ∧ (∀ name' desc' file',
       created_id (handle v e r.1 (PostRegister name' desc' file')).2
       = created_id (handle v e s (PostRegister name' desc' file')).2)
  ∧ (file = None → r.1 = s).
Proof.
  simpl. rewrite post_register_empty by done. simpl.
  pose proof (upload_single_nextId e s file) as Hnext.
  split; [done|]. split; [apply upload_single_inventory|].
  split; [done|]. split.
  - intros name' desc' file'. unfold post_register.
    pose proof (upload_single_nextId e (upload_single e s file).1 file')
      as Hn1.
    pose proof (upload_single_nextId e s file') as Hn2.
    destruct (upload_single e (upload_single e s file).1 file') as [s1' f1].
    destruct (upload_single e s file') as [s' f2]. simpl in *.
    destruct (truthy_opt name'); simpl; [|done].
    unfold created_id. simpl. congruence.
  - by intros ->.
Qed.

Lemma create_empty_name_no_effect_witness :
  status (handle Express local_env init
            (PostRegister (Some "") (Some "x") None)).2 = 400
  ∧ (handle Express local_env init
       (PostRegister (Some "") (Some "x") None)).1 = init.
Proof.
  pose proof (create_empty_name_no_effect Express local_env init
                (Some "") (Some "x") None eq_refl) as H.
  simpl in H. destruct H as (H1 & _ & _ & _ & H5).
  split; [exact H1|exact (H5 eq_refl)].
Defined.

(** ** Metadata update *)

(** C8. For a record that is in the store, the update route replaces the
    name when a name is sent and the description when a description is sent,
    with exactly the sent values, and keeps a field that is not sent; the id
    and the photo of the record, the other records, the order of the
    inventory, the identifier counter and the disk are left as they were. *)
Theorem update_metadata_frame (v : Variant) (e : Env) (s : State)
    (n : jsnum) (name desc : option string) (item : Item)
    (Hfound : find (has_id n) (inventory s) = Some item) :
  let r := handle v e s (PutItem n name desc) in
  let item' :=
    {| id := id item;
       inventory_name := default (inventory_name item) name;
       description := default (description item) desc;
       photo := photo item |} in
  r.2 = {| status := 200; body := JItem "Item updated successfully" item' |}
  ∧ find (has_id n) (inventory r.1) = Some item'
  ∧ (∃ k, inventory s !! k = Some item
          ∧ inventory r.1 = <[k := item']> (inventory s))
  ∧ nextId r.1 = nextId s
  ∧ disk r.1 = disk s
  ∧ (name = None → inventory_name item' = inventory_name item)
  ∧ (desc = None → description item' = description item).
Proof.
  simpl.
  destruct (put_item_found e s n name desc item Hfound)
    as (k & Hk & Hlk & ->). simpl.
  split; [done|]. split.
  - apply find_insert; [done|]. apply has_id_true. simpl.
    by apply has_id_true, (find_elem_of _ _ _ Hfound).
  - split; [by exists k|]. repeat split; by intros ->.
Qed.

Lemma update_metadata_frame_witness :
  find (has_id (Num 1)) (inventory one_laptop) = Some laptop
  ∧ (handle Express local_env one_laptop
       (PutItem (Num 1) None (Some "Office laptop"))).2
    = {| status := 200;
         body := JItem "Item updated successfully"
                   {| id := 1; inventory_name := "Laptop Asus";
                      description := "Office laptop"; photo := None |} |}.
Proof.
  split; [reflexivity|].
  exact (proj1 (update_metadata_frame Express local_env one_laptop (Num 1)
                  None (Some "Office laptop") laptop eq_refl)).
Defined.

(** ** Search *)

Lemma post_search_eq e s n has_photo :
  post_search e s n has_photo =
  (s, match find (has_id n) (inventory s) with
      | Some item =>
          {| status := 200; body := JSearch (search_result e item has_photo) |}
      | None => item_not_found
      end).
Proof.
  unfold post_search, search_result. case_find s n; [|done].
  do 4 f_equal. destruct has_photo as [x|]; [|done].
  destruct (String.eqb_spec x "true") as [->|Hne]; [done|].
  rewrite bool_decide_eq_false_2; [done|congruence].
Qed.

(** C10. The search route never changes the state: the inventory with every
    field of every record, the identifier counter and the disk are the same
    after the request as before, also when the flag asks for the photo
    reference.  The photo reference is appended to the description of the
    answer only; any number of repeated searches leaves the state unchanged
    and is answered each time with the answer of the first one. *)
Theorem search_does_not_mutate (v : Variant) (e : Env) (s : State)
    (n : jsnum) (has_photo : option string) (k : nat) :
  let r := handle v e s (PostSearch n has_photo) in
  r.1 = s
  ∧ r.2 = match find (has_id n) (inventory s) with
          | Some item =>
              {| status := 200;
                 body := JSearch (search_result e item has_photo) |}
          | None => item_not_found
          end
  ∧ serve v e s (replicate k (PostSearch n has_photo)) = (s, replicate k r.2).
Proof.
  simpl. rewrite post_search_eq. simpl. split; [done|]. split; [done|].
  induction k as [|k IH]; simpl; [done|].
  by rewrite post_search_eq, IH.
Qed.

(** ** Blobs on disk *)

Lemma remove_photo_lookup_old e d item name :
  photo item = Some name → truthy name = true →
  readFile e (remove_photo e d item) (storagePath e name) = None.
Proof.
  intros Hp Ht. unfold remove_photo, readFile, storagePath, destination.
  rewrite Hp, Ht. unfold existsSync, unlinkSync.
  destruct (d !! _) eqn:Hd; [apply lookup_delete_eq|done].
Qed.

Lemma remove_photo_lookup_ne e d item p :
  (∀ name, photo item = Some name → p ≠ blobFile e name) →
  remove_photo e d item !! p = d !! p.
Proof.
  intros Hne. unfold remove_photo.
  destruct (photo item) as [name|]; [|done].
  destruct (truthy name); [|done].
  destruct (existsSync _ _ _); [|done].
  unfold unlinkSync. rewrite lookup_delete_ne; [done|].
  intros <-. by apply (Hne name).
Qed.

Lemma remove_photo_lookup_Some e d item p bytes :
  remove_photo e d item !! p = Some bytes → d !! p = Some bytes.
Proof.
  unfold remove_photo.
  destruct (photo item) as [name|]; [|done].
  destruct (truthy name); [|done].
  destruct (existsSync _ _ _); [|done].
  unfold unlinkSync. rewrite lookup_delete_Some. by intros [_ ?].
Qed.



(** ** Deletion *)

(** C6. In a state the server can reach, the delete route answers 404 and
    changes nothing when the id is unknown.  When the id is known it answers
    200, removes that record (the others stay, in order) and, in the same
    step, its blob: afterwards the record is not found any more, and if it
    had a photo, no file is left where the blob was stored and the photo
    route answers 404. *)
Theorem delete_spec (v : Variant) (e : Env) (s : State) (n : jsnum)
    (Hreach : reachable v e s) :
  let r := handle v e s (DeleteItem n) in
  match find (has_id n) (inventory s) with
  | None => r = (s, item_not_found)
  | Some item =>
      r.2 = {| status := 200;
               body := JDeleted "Item deleted successfully" n |}
      ∧ (∃ k, inventory s !! k = Some item
              ∧ inventory r.1 = delete k (inventory s))
      ∧ nextId r.1 = nextId s
      ∧ find (has_id n) (inventory r.1) = None
      ∧ (handle v e r.1 (GetItem n)).2 = item_not_found
      ∧ (handle v e r.1 (GetPhoto n)).2 = item_not_found
      ∧ (∀ name, photo item = Some name →
                 readFile e (disk r.1) (storagePath e name) = None)
  end.
Proof.
  simpl. apply reachable_wf in Hreach as Hwf. case_find s n.
  - destruct (delete_item_found e s n item Hfind) as (k & Hk & Hlk & ->).
    simpl.
    pose proof (find_delete_unique n (inventory s) k (wf_nodup _ Hwf) Hk)
      as Hgone.
    split; [done|]. split; [by exists k|]. split; [done|].
    split; [done|]. unfold get_item, get_photo. simpl. rewrite Hgone.
    split; [done|]. split; [done|]. intros name Hname.
    apply remove_photo_lookup_old; [done|].
    by apply (proj1 (Forall_lookup _ _) (wf_photos _ Hwf) k item).
  - by apply delete_item_missing.
Qed.

Lemma one_photo_reachable v : reachable v local_env one_photo.
Proof.
  exists ∅, [PostRegister (Some "Laptop Asus") (Some "Gaming laptop")
               (Some laptop_upload)].
  by destruct v.
Qed.

Lemma delete_spec_witness :
  reachable Express local_env one_photo
  ∧ readFile local_env
      (disk (handle Express local_env one_photo (DeleteItem (Num 1))).1)
      (storagePath local_env "1700000000000-laptop.jpg") = None.
Proof.
  split; [apply one_photo_reachable|].
  pose proof (delete_spec Express local_env one_photo (Num 1)
                (one_photo_reachable Express)) as H.
  cbv zeta in H.
  change (find (has_id (Num 1)) (inventory one_photo))
    with (Some {| id := 1; inventory_name := "Laptop Asus";
                  description := "Gaming laptop";
                  photo := Some "1700000000000-laptop.jpg" |}) in H.
  exact (proj2 (proj2 (proj2 (proj2 (proj2 (proj2 H)))))
           "1700000000000-laptop.jpg" eq_refl).
Defined.

(** ** Reading a photo *)

(** The plain program reads a blob from the very path it was stored at. *)
Lemma express_reads_where_stored e name :
  photoReadPath Express e name = storagePath e name.
Proof. done. Qed.

(** X16. Reading a photo where the route can deliver it.  In a state the
    server can reach, the photo route leaves the state alone.  It answers
    404 when no record has the id and when the record has no photo.  For a
    record with a photo, if the path the route reads from passes the checks
    of [res.sendFile] and denotes the file the blob is stored in, it
    answers 404 when that file is missing and otherwise 200 with the bytes
    of the file, declared as an image. *)
Theorem read_photo_spec (v : Variant) (e : Env) (s : State) (n : jsnum)
    (Hreach : reachable v e s)
    (Hpath : ∀ item name,
        find (has_id n) (inventory s) = Some item →
        photo item = Some name →
        sendable (photoReadPath v e name) = true
        ∧ readBlobFile v e name = blobFile e name) :
  let r := handle v e s (GetPhoto n) in
  r.1 = s
  ∧ match find (has_id n) (inventory s) with
    | None => r.2 = item_not_found
    | Some item =>
        match photo item with
        | None => r.2 = {| status := 404; body := JError "Photo not found" |}
        | Some name =>
            match readFile e (disk s) (storagePath e name) with
            | None =>
                r.2 = {| status := 404;
                         body := JError "Photo file not found" |}
            | Some bytes =>
                r.2 = {| status := 200; body := JFile "image/jpeg" bytes |}
            end
        end
    end
  ∧ (status r.2 = 404 ∨ status r.2 = 200).
Proof.
  simpl. apply reachable_wf in Hreach as Hwf.
  unfold get_photo. revert Hpath. case_find s n; intros Hpath; [|by auto].
  destruct (find_Some _ _ _ Hfind) as (k & _ & Hlk & _).
  pose proof (proj1 (Forall_lookup _ _) (wf_photos _ Hwf) k item Hlk) as Hph.
  simpl in Hph. specialize (Hpath item).
  destruct (photo item) as [name|]; [|by auto].
  destruct (Hpath name eq_refl eq_refl) as [Hsend Hsame].
  rewrite (Hph name eq_refl). simpl.
  rewrite sendFile_sendable by done.
  unfold existsSync, readFile.
  fold (readBlobFile v e name) (blobFile e name). rewrite Hsame.
  destruct (disk s !! _) as [bytes|]; simpl; auto.
Qed.

Lemma read_photo_spec_witness :
  reachable Express local_env one_photo
  ∧ (handle Express local_env one_photo (GetPhoto (Num 1))).2
    = {| status := 200;
         body := JFile "image/jpeg" [Byte.x4a; Byte.x46] |}.
Proof.
  split; [apply one_photo_reachable|].
  refine (proj1 (proj2 (read_photo_spec Express local_env one_photo (Num 1)
                          (one_photo_reachable Express) _))).
  intros item name Hfind Hname.
  vm_compute in Hfind. injection Hfind as <-.
  vm_compute in Hname. injection Hname as <-.
  split; vm_compute; reflexivity.
Defined.

(** C9. The photo route does not always return the bytes of a blob that is
    in the repository.  The plain program, started with the relative cache
    directory [./cache], holds a record whose blob is stored; the route
    finds the file and hands [res.sendFile] a relative path, and the
    answer is 500.  The documented program, started with an absolute cache
    directory, holds the same record and blob; the route looks below the
    script directory and answers 404. *)
Theorem read_photo_fails_on_stored_blob :
  (find (has_id (Num 1)) (inventory one_photo_relative)
   = Some (set_photo (Some "1700000000000-laptop.jpg") laptop)
   ∧ readFile script_dir_env (disk one_photo_relative)
       (storagePath script_dir_env "1700000000000-laptop.jpg")
     = Some [Byte.x4a; Byte.x46]
   ∧ (handle Express script_dir_env one_photo_relative (GetPhoto (Num 1))).2
     = error_page 500
         "TypeError: path must be absolute or specify root to res.sendFile")
  ∧ (find (has_id (Num 1)) (inventory one_photo)
     = Some (set_photo (Some "1700000000000-laptop.jpg") laptop)
     ∧ readFile local_env (disk one_photo)
         (storagePath local_env "1700000000000-laptop.jpg")
       = Some [Byte.x4a; Byte.x46]
     ∧ (handle Swagger local_env one_photo (GetPhoto (Num 1))).2
       = {| status := 404; body := JError "Photo file not found" |}).
Proof. repeat split; vm_compute; reflexivity. Qed.

(** ** Photo replacement *)




(** C5. After a photo replacement the new blob is not always retrievable.
    In each of three runs the record has a photo, the replacement is
    answered 200 with the record carrying the new photo name, and the photo
    route then fails.  (1) The documented program with an absolute cache
    directory: the new blob is stored, the route looks below the script
    directory and answers 404.  (2) The plain program with the relative
    cache directory [./cache]: the new blob is stored, the route hands
    [res.sendFile] a relative path and the answer is 500.  (3) The plain
    program, when the new photo gets the name of the current one (same
    original name, same millisecond): the new file overwrites the current
    one and is then unlinked as the old photo, and the route answers
    404. *)
Theorem replace_photo_not_retrievable :
  (let r := handle Swagger local_env one_photo
              (PutPhoto (Num 1) (Some later_upload)) in
   r.2 = {| status := 200;
            body := JItem "Photo updated successfully"
                      (set_photo (Some "1700000001000-laptop.jpg") laptop) |}
   ∧ readFile local_env (disk r.1)
       (storagePath local_env "1700000001000-laptop.jpg")
     = Some [Byte.x59]
   ∧ (handle Swagger local_env r.1 (GetPhoto (Num 1))).2
     = {| status := 404; body := JError "Photo file not found" |})
  ∧ (let r := handle Express script_dir_env one_photo_relative
                (PutPhoto (Num 1) (Some later_upload)) in
     r.2 = {| status := 200;
              body := JItem "Photo updated successfully"
                        (set_photo (Some "1700000001000-laptop.jpg")
                           laptop) |}
     ∧ readFile script_dir_env (disk r.1)
         (storagePath script_dir_env "1700000001000-laptop.jpg")
       = Some [Byte.x59]
     ∧ (handle Express script_dir_env r.1 (GetPhoto (Num 1))).2
       = error_page 500
           "TypeError: path must be absolute or specify root to res.sendFile")
  ∧ (let r := handle Express local_env one_photo
                (PutPhoto (Num 1) (Some same_ms_upload)) in
     r.2 = {| status := 200;
              body := JItem "Photo updated successfully"
                        (set_photo (Some "1700000000000-laptop.jpg")
                           laptop) |}
     ∧ readFile local_env (disk r.1)
         (storagePath local_env "1700000000000-laptop.jpg")
       = None
     ∧ (handle Express local_env r.1 (GetPhoto (Num 1))).2
       = {| status := 404; body := JError "Photo file not found" |}).
Proof. repeat split; vm_compute; reflexivity. Qed.

(** ** Orphaned blobs *)








(** ** Path algebra *)

Module path_facts.
Import path.

Lemma plain_kept seg : plain_segment seg → kept_segment seg.
Proof. intros (? & ? & ? & ?). done. Qed.

Lemma hasSep_app (a b : string) : hasSep (a +:+ b) = hasSep a || hasSep b.
Proof.
  induction a as [|c a IH]; simpl; [done|]. by rewrite IH, orb_assoc.
Qed.

Lemma segments_nonempty (s : string) : segments s ≠ [].
Proof.
  destruct s as [|c s]; simpl; [done|].
  destruct (Ascii.eqb c "/"); [done|]. by destruct (segments s).
Qed.

Lemma segments_sep_free (s : string) : hasSep s = false → segments s = [s].
Proof.
  induction s as [|c s IH]; simpl; [done|].
  destruct (Ascii.eqb c "/"); simpl; [done|].
  intros H. by rewrite (IH H).
Qed.

Lemma segments_app_sep (a b : string) :
  segments (a +:+ String "/" b) = (segments a ++ segments b)%list.
Proof.
  induction a as [|c a IH]; simpl; [done|].
  destruct (Ascii.eqb c "/"); simpl; [by rewrite IH|].
  rewrite IH. pose proof (segments_nonempty a).
  by destruct (segments a).
Qed.

Lemma Forall_segments (s : string) :
  Forall (λ seg, hasSep seg = false) (segments s).
Proof.
  induction s as [|c s IH]; simpl; [by repeat constructor|].
  destruct (Ascii.eqb c "/") eqn:Hc; [by constructor|].
  destruct (segments s) as [|seg rest].
  - constructor; [simpl; by rewrite Hc|constructor].
  - apply Forall_cons in IH as [? ?]. constructor; [|done].
    simpl. by rewrite Hc.
Qed.

Lemma push_noop a res seg :
  seg = "" ∨ seg = "." → push_segment a res seg = res.
Proof. by intros [-> | ->]. Qed.

Lemma push_plain a res seg :
  plain_segment seg → push_segment a res seg = seg :: res.
Proof.
  intros (H1 & H2 & H3 & _). unfold push_segment.
  apply String.eqb_neq in H1, H2, H3. by rewrite H1, H2, H3.
Qed.

Lemma push_up_kept res last rest :
  res = last :: rest → last ≠ ".." →
  push_segment false res ".." = rest ∧ push_segment true res ".." = rest.
Proof.
  intros -> H. unfold push_segment. simpl.
  apply String.eqb_neq in H. by rewrite H.
Qed.

(** The segments are of three kinds. *)
Lemma segment_cases seg :
  hasSep seg = false →
  (seg = "" ∨ seg = ".") ∨ seg = ".." ∨ plain_segment seg.
Proof.
  intros H.
  destruct (decide (seg = "")); [by auto|].
  destruct (decide (seg = ".")); [by auto|].
  destruct (decide (seg = "..")); [by auto|].
  right; right. done.
Qed.

Lemma push_kept a res seg :
  Forall kept_segment res → hasSep seg = false →
  Forall kept_segment (push_segment a res seg).
Proof.
  intros Hres Hseg.
  destruct (segment_cases seg Hseg) as [Hn|[->|Hp]].
  - by rewrite push_noop.
  - unfold push_segment. simpl.
    destruct res as [|last rest]; [by destruct a; repeat constructor|].
    apply Forall_cons in Hres as Hres'. destruct Hres' as [? ?].
    destruct (String.eqb last ".."); [|done].
    destruct a; [|done]. by constructor.
  - rewrite push_plain by done. constructor; [by apply plain_kept|done].
Qed.

Lemma fold_push_kept a segs res :
  Forall kept_segment res → Forall (λ seg, hasSep seg = false) segs →
  Forall kept_segment (fold_left (push_segment a) segs res).
Proof.
  revert res. induction segs as [|seg segs IH]; intros res Hres Hsegs;
    simpl; [done|].
  apply Forall_cons in Hsegs as [? ?]. apply IH; [|done].
  by apply push_kept.
Qed.

(** Without permission to climb above the start, no [..] is ever kept. *)
Lemma push_false_plain res seg :
  Forall plain_segment res → hasSep seg = false →
  Forall plain_segment (push_segment false res seg).
Proof.
  intros Hres Hseg.
  destruct (segment_cases seg Hseg) as [Hn|[->|Hp]].
  - by rewrite push_noop.
  - unfold push_segment. simpl. destruct res as [|last rest]; [done|].
    apply Forall_cons in Hres as Hres'. destruct Hres' as [? ?].
    by destruct (String.eqb last "..").
  - rewrite push_plain by done. by constructor.
Qed.

Lemma fold_push_false_plain segs res :
  Forall plain_segment res → Forall (λ seg, hasSep seg = false) segs →
  Forall plain_segment (fold_left (push_segment false) segs res).
Proof.
  revert res. induction segs as [|seg segs IH]; intros res Hres Hsegs;
    simpl; [done|].
  apply Forall_cons in Hsegs as [? ?]. apply IH; [|done].
  by apply push_false_plain.
Qed.

(** Pushing entries only stacks them up. *)
Lemma fold_push_plain a segs res :
  Forall plain_segment segs →
  fold_left (push_segment a) segs res = (rev segs ++ res)%list.
Proof.
  revert res. induction segs as [|seg segs IH]; intros res Hsegs; simpl;
    [done|].
  apply Forall_cons in Hsegs as [? ?].
  rewrite push_plain by done. rewrite IH by done.
  by rewrite <-app_assoc.
Qed.
(** Normalising a relative path first and resolving it afterwards is the
    same as resolving it at once: [st] is what the working directory left
    on the stack, [res] what the relative path has kept so far. *)
Lemma push_merge res st seg :
  Forall kept_segment res → hasSep seg = false →
  push_segment false (fold_left (push_segment false) (rev res) st) seg
  = fold_left (push_segment false) (rev (push_segment true res seg)) st.
Proof.
  intros Hres Hseg.
  destruct (segment_cases seg Hseg) as [Hn|[->|Hp]].
  - by rewrite !push_noop.
  - destruct res as [|last rest]; [done|].
    destruct (decide (last = "..")) as [->|Hne].
    + change (push_segment true (".." :: rest) "..")
        with (".." :: ".." :: rest).
      change (rev (".." :: ".." :: rest))
        with (rev (".." :: rest) ++ [".."])%list.
      by rewrite fold_left_app.
    + destruct (push_up_kept (last :: rest) last rest eq_refl Hne)
        as [_ ->].
      apply Forall_cons in Hres as [(? & ? & ?) _].
      simpl. rewrite fold_left_app. simpl.
      rewrite (push_plain false _ last) by done.
      by destruct (push_up_kept (last :: fold_left (push_segment false)
                     (rev rest) st) last _ eq_refl Hne) as [-> _].
  - rewrite !push_plain by done. simpl. rewrite fold_left_app. simpl.
    by rewrite push_plain.
Qed.

Lemma fold_merge segs res st :
  Forall kept_segment res → Forall (λ seg, hasSep seg = false) segs →
  fold_left (push_segment false) segs
    (fold_left (push_segment false) (rev res) st)
  = fold_left (push_segment false)
      (rev (fold_left (push_segment true) segs res)) st.
Proof.
  revert res. induction segs as [|seg segs IH]; intros res Hres Hsegs;
    simpl; [done|].
  apply Forall_cons in Hsegs as [? ?].
  rewrite push_merge by done. apply IH; [|done]. by apply push_kept.
Qed.

Lemma segments_joinWith (l : list string) :
  l ≠ [] → Forall (λ seg, hasSep seg = false) l →
  segments (joinWith "/" l) = l.
Proof.
  induction l as [|x l IH]; [done|]. intros _ Hl.
  apply Forall_cons in Hl as [Hx Hl].
  destruct l as [|y l]; [by apply segments_sep_free|].
  change (joinWith "/" (x :: y :: l))
    with (x +:+ String "/" (joinWith "/" (y :: l))).
  rewrite segments_app_sep, segments_sep_free by done.
  by rewrite IH.
Qed.

Lemma joinWith_empty (l : list string) :
  Forall kept_segment l → joinWith "/" l = "" → l = [].
Proof.
  destruct l as [|x l]; [done|]. intros [(Hx & _) _]%Forall_cons.
  destruct x as [|c x]; [done|]. by destruct l.
Qed.

Lemma joinWith_head (l : list string) c r :
  Forall kept_segment l → joinWith "/" l = String c r → c ≠ "/"%char.
Proof.
  destruct l as [|x l]; [done|]. intros [(Hx0 & _ & Hx) _]%Forall_cons.
  destruct x as [|d x]; [done|].
  simpl in Hx. apply orb_false_iff in Hx as [Hd _].
  intros Heq. assert (d = c) as -> by (destruct l; by injection Heq).
  intros ->. done.
Qed.

Lemma kept_sep_free (l : list string) :
  Forall kept_segment l → Forall (λ seg, hasSep seg = false) l.
Proof. intros H. eapply Forall_impl; [exact H|]. by intros seg (_ & _ & ?). Qed.

(** The segments of a normalised path are its kept segments, up to empty
    segments and [.], which the next normalisation drops again. *)
Lemma fold_segments_normalize a st (q : string) :
  q ≠ "" →
  fold_left (push_segment a) (segments (normalize q)) st
  = fold_left (push_segment a)
      (normalizeSegments (negb (isAbsolute q)) (segments q)) st.
Proof.
  intros Hq. unfold normalize. destruct q as [|c0 q0]; [done|].
  set (q := String c0 q0). set (N := normalizeSegments _ _).
  assert (Forall kept_segment N) as HN.
  { apply Forall_rev, fold_push_kept; [done|apply Forall_segments]. }
  destruct (joinWith "/" N) as [|c J] eqn:HJ.
  - apply joinWith_empty in HJ as ->; [|done].
    by destruct (isAbsolute q), (endsWithSep q).
  - assert (N ≠ []) as Hne by (by intros ->).
    rewrite <-HJ.
    assert (segments (joinWith "/" N +:+ "/") = (N ++ [""])%list) as Htrail.
    { change (joinWith "/" N +:+ "/")
        with (joinWith "/" N +:+ String "/" "").
      rewrite segments_app_sep, segments_joinWith;
        [done|done|by apply kept_sep_free]. }
    assert (segments (joinWith "/" N) = N) as Hplain.
    { apply segments_joinWith; [done|by apply kept_sep_free]. }
    destruct (isAbsolute q), (endsWithSep q); simpl;
      change (String.append "" ?x) with x;
      rewrite ?Htrail, ?Hplain, ?fold_left_app; done.
Qed.

Lemma isAbsolute_normalize (q : string) :
  q ≠ "" → isAbsolute (normalize q) = isAbsolute q.
Proof.
  intros Hq. unfold normalize. destruct q as [|c0 q0]; [done|].
  set (q := String c0 q0). set (N := normalizeSegments _ _).
  assert (Forall kept_segment N) as HN.
  { apply Forall_rev, fold_push_kept; [done|apply Forall_segments]. }
  destruct (joinWith "/" N) as [|c J] eqn:HJ.
  - by destruct (isAbsolute q), (endsWithSep q).
  - pose proof (joinWith_head N c J HN HJ) as Hc.
    apply Ascii.eqb_neq in Hc.
    destruct (isAbsolute q), (endsWithSep q); simpl; done.
Qed.

Lemma resolveSegments_normalize (cwd q : string) :
  q ≠ "" → resolveSegments cwd (normalize q) = resolveSegments cwd q.
Proof.
  intros Hq. unfold resolveSegments.
  rewrite isAbsolute_normalize by done. unfold normalizeSegments.
  f_equal. destruct (isAbsolute q) eqn:Habs.
  - rewrite fold_segments_normalize by done. rewrite Habs. simpl.
    unfold normalizeSegments. rewrite fold_push_plain.
    + by rewrite rev_involutive, app_nil_r.
    + apply Forall_rev, fold_push_false_plain; [done|apply Forall_segments].
  - change (cwd +:+ "/" +:+ normalize q)
      with (cwd +:+ String "/" (normalize q)).
    change (cwd +:+ "/" +:+ q) with (cwd +:+ String "/" q).
    rewrite !segments_app_sep, !fold_left_app.
    rewrite fold_segments_normalize by done. rewrite Habs. simpl.
    unfold normalizeSegments.
    rewrite <-fold_merge; [done|done|apply Forall_segments].
Qed.

Lemma join_dir_name (dir name : string) :
  truthy name = true →
  join [dir; name]
  = normalize match dir with
              | EmptyString => name
              | String _ _ => dir +:+ String "/" name
              end.
Proof.
  intros Ht. unfold join. destruct dir as [|c dir].
  - rewrite filter_cons_False by done. by rewrite filter_cons_True by done.
  - rewrite filter_cons_True by done. by rewrite filter_cons_True by done.
Qed.

Lemma plain_not_absolute (name : string) :
  plain_segment name → isAbsolute name = false.
Proof.
  intros (Hne & _ & _ & Hsep). destruct name as [|d name]; [done|].
  simpl in *. by apply orb_false_iff in Hsep as [? _].
Qed.

(** Joining a directory and an entry name, then resolving: the directory,
    resolved, followed by the name. *)
Lemma resolveSegments_join (cwd dir name : string) :
  plain_segment name →
  resolveSegments cwd (join [dir; name])
  = (resolveSegments cwd dir ++ [name])%list.
Proof.
  intros Hname. pose proof Hname as (Hne & _ & _ & Hsep).
  assert (truthy name = true) as Ht by (by destruct name).
  rewrite join_dir_name by done.
  destruct dir as [|c dir0].
  - rewrite resolveSegments_normalize by done.
    unfold resolveSegments. rewrite plain_not_absolute by done.
    change (isAbsolute "") with false. cbv iota.
    change (cwd +:+ "/" +:+ name) with (cwd +:+ String "/" name).
    change (cwd +:+ "/" +:+ "") with (cwd +:+ String "/" "").
    rewrite !segments_app_sep, (segments_sep_free name) by done.
    unfold normalizeSegments. rewrite !fold_left_app.
    change (segments "") with [""].
    cbn [fold_left]. rewrite push_plain by done.
    rewrite push_noop by auto. done.
  - set (dir := String c dir0).
    rewrite resolveSegments_normalize by done.
    unfold resolveSegments.
    change (isAbsolute (dir +:+ String "/" name)) with (isAbsolute dir).
    destruct (isAbsolute dir).
    + rewrite segments_app_sep, (segments_sep_free name) by done.
      unfold normalizeSegments. rewrite fold_left_app.
      cbn [fold_left]. by rewrite push_plain by done.
    + change (cwd +:+ "/" +:+ (dir +:+ String "/" name))
        with (cwd +:+ String "/" (dir +:+ String "/" name)).
      change (cwd +:+ "/" +:+ dir) with (cwd +:+ String "/" dir).
      rewrite !segments_app_sep, (segments_sep_free name) by done.
      unfold normalizeSegments. rewrite !fold_left_app.
      cbn [fold_left]. by rewrite push_plain by done.
Qed.
End path_facts.

(** ** Blob names *)

Lemma hasSep_string_of_uint (d : uint) :
  path.hasSep (NilEmpty.string_of_uint d) = false.
Proof. induction d; simpl; done. Qed.

Lemma hasSep_show_Z (z : Z) : path.hasSep (show_Z z) = false.
Proof.
  unfold show_Z, NilZero.string_of_int, NilZero.string_of_uint.
  destruct (Z.to_int z) as [d|d]; destruct d; simpl;
    by rewrite ?hasSep_string_of_uint.
Qed.

Lemma hasSep_filename (f : Upload) :
  path.hasSep (filename f) = path.hasSep (originalname f).
Proof.
  unfold filename. rewrite !path_facts.hasSep_app, hasSep_show_Z. done.
Qed.

(** A string with a hyphen in it is neither [.] nor [..]. *)
Lemma hyphen_not_dots (a b : string) :
  (a +:+ "-" +:+ b) ≠ "." ∧ (a +:+ "-" +:+ b) ≠ "..".
Proof.
  destruct a as [|c1 [|c2 [|c3 a]]]; simpl; split; intros H; discriminate H.
Qed.

Lemma filename_plain (f : Upload) :
  path.hasSep (originalname f) = false → plain_segment (filename f).
Proof.
  intros Hsep. split; [|split; [|split]].
  - pose proof (filename_truthy f). by destruct (filename f).
  - apply hyphen_not_dots.
  - apply hyphen_not_dots.
  - by rewrite hasSep_filename.
Qed.

(** The generated blob name is the clock reading, a hyphen and the name of
    the file object as it is, so it contains a path separator exactly
    when that name does.  When that name contains no separator, the blob
    name contains none and no parent-directory segment, and the blob file
    is created directly in the cache directory under that name. *)
Lemma store_name_spec (e : Env) (f : Upload) :
  (∃ stamp, filename f = (stamp +:+ "-" +:+ originalname f)
            ∧ path.hasSep stamp = false)
  ∧ path.hasSep (filename f) = path.hasSep (originalname f)
  ∧ (path.hasSep (originalname f) = false →
     store_name_claim e f
     ∧ path.resolveSegments (cwd e) (storagePath e (filename f))
       = (path.resolveSegments (cwd e) (cache (options e))
          ++ [filename f])%list).
Proof.
  split; [exists (show_Z (now f)); split; [done|apply hasSep_show_Z]|].
  split; [apply hasSep_filename|]. intros Hsep.
  pose proof (filename_plain f Hsep) as Hplain.
  assert (path.resolveSegments (cwd e) (storagePath e (filename f))
          = (path.resolveSegments (cwd e) (cache (options e))
             ++ [filename f])%list) as Hpath.
  { unfold storagePath, destination.
    by apply path_facts.resolveSegments_join. }
  split; [|done]. split; [by rewrite hasSep_filename|]. split.
  - rewrite path_facts.segments_sep_free by (by rewrite hasSep_filename).
    intros H%list_elem_of_singleton. by destruct Hplain as (_ & _ & ? & _).
  - by exists [filename f].
Qed.

(** What is left after the last separator has no separator. *)
Lemma hasSlash_afterLastSlash (p : string) :
  hasSlash (afterLastSlash p) = false.
Proof.
  induction p as [|c r IH]; [done|].
  cbn [afterLastSlash]. destruct (isSlash c || hasSlash r) eqn:H; [done|].
  exact H.
Qed.

Lemma hasSep_hasSlash (p : string) :
  hasSlash p = false → path.hasSep p = false.
Proof.
  induction p as [|c r IH]; [done|]. simpl. unfold isSlash.
  intros H. apply orb_false_iff in H as [H1 H2].
  apply orb_false_iff in H1 as [H1 _]. by rewrite H1, IH.
Qed.

Lemma hasSep_basename (p : string) : path.hasSep (basename p) = false.
Proof.
  unfold basename.
  destruct (String.eqb _ "." || String.eqb _ ".."); [done|].
  apply hasSep_hasSlash, hasSlash_afterLastSlash.
Qed.

(** The file object multer builds carries a base name. *)
Lemma multer_file_Some (part : FilePart) (f : Upload) :
  multer_file part = Some f →
  originalname f = basename (clientname part)
  ∧ content f = bytes_sent part
  ∧ now f = received part
  ∧ path.hasSep (originalname f) = false.
Proof.
  unfold multer_file. destruct (truthy _); [|done].
  intros [= <-]. simpl. repeat split. apply hasSep_basename.
Qed.

(** C2. Whatever name the client sends with a file part, also one with
    separators or [..] segments: either multer drops the part and nothing
    is stored, or the file object carries the base name of the name sent,
    the generated blob name contains no path separator and is no
    parent-directory segment, and the file is written directly inside the
    cache directory under the generated name. *)
Theorem store_name_safe (e : Env) (s : State) (part : FilePart) :
  match multer_file part with
  | None => receive e s (Some part) = (s, None)
  | Some f =>
      originalname f = basename (clientname part)
      ∧ store_name_claim e f
      ∧ path.resolveSegments (cwd e) (storagePath e (filename f))
        = (path.resolveSegments (cwd e) (cache (options e))
           ++ [filename f])%list
      ∧ receive e s (Some part)
        = ({| inventory := inventory s; nextId := nextId s;
              disk := <[blobFile e (filename f) := bytes_sent part]>
                        (disk s) |},
           Some (filename f))
  end.
Proof.
  unfold receive. simpl.
  destruct (multer_file part) as [f|] eqn:Hf; [|done].
  destruct (multer_file_Some part f Hf) as (Hname & Hcontent & _ & Hsep).
  destruct (store_name_spec e f) as (_ & _ & Hsafe).
  destruct (Hsafe Hsep) as [Hclaim Hpath].
  split; [done|]. split; [done|]. split; [done|].
  unfold upload_single, writeFile, blobFile. by rewrite Hcontent.
Qed.

(** A part named [../../../etc/passwd] is stored inside the directory,
    under the base name [passwd]. *)
Example traversal_part_stays_inside :
  (receive local_env init (Some traversal_part)).2
  = Some "1700000000000-passwd"
  ∧ disk (receive local_env init (Some traversal_part)).1
    = {[ "/var/cache/inventory/1700000000000-passwd" := [Byte.x72] ]}.
Proof. split; vm_compute; reflexivity. Qed.

(** ** A run through the service *)

(** Register a laptop with a photo, replace the photo, read it, delete the
    record, then ask for the record and its photo again: the answers are
    201, 200, 200 with the new bytes, 200, 404 and 404, and the disk is
    empty at the end. *)
Example laptop_scenario :
  let run :=
    serve Express local_env init
      [PostRegister (Some "Laptop Asus") (Some "Gaming laptop")
         (Some laptop_upload);
       PutPhoto (Num 1) (Some later_upload);
       GetPhoto (Num 1);
       DeleteItem (Num 1);
       GetItem (Num 1);
       GetPhoto (Num 1)] in
  status <$> run.2 = [201; 200; 200; 200; 404; 404]
  ∧ body <$> run.2 !! 2%nat = Some (JFile "image/jpeg" (content later_upload))
  ∧ inventory run.1 = []
  ∧ nextId run.1 = 2
  ∧ disk run.1 = ∅.
Proof. vm_compute. done. Qed.

(** ** More on [find] *)

Lemma find_None_Forall {A} (p : A → bool) (l : list A) :
  find p l = None ↔ Forall (λ x, p x = false) l.
Proof.
  induction l as [|a l IH]; simpl; [by split; [constructor|]|].
  rewrite Forall_cons. destruct (p a).
  - split; [done|by intros []].
  - rewrite IH. split; [done|by intros []].
Qed.

Lemma find_app {A} (p : A → bool) (l1 l2 : list A) :
  find p (l1 ++ l2) =
  match find p l1 with
  | Some x => Some x
  | None => find p l2
  end.
Proof.
  induction l1 as [|a l1 IH]; simpl; [done|]. by destruct (p a).
Qed.

Lemma find_insert_other {A} (p : A → bool) (l : list A) k x y :
  l !! k = Some x → p x = false → p y = false →
  find p (<[k := y]> l) = find p l.
Proof.
  revert k. induction l as [|a l IH]; intros k; [done|].
  destruct k as [|k]; simpl.
  - intros [= ->] -> ->. done.
  - intros Hk Hx Hy. destruct (p a); [done|]. by apply IH.
Qed.

Lemma find_delete_other {A} (p : A → bool) (l : list A) k x :
  l !! k = Some x → p x = false → find p (delete k l) = find p l.
Proof.
  revert k. induction l as [|a l IH]; intros k; [done|].
  destruct k as [|k]; simpl.
  - intros [= ->] ->. done.
  - intros Hk Hx. destruct (p a); [done|]. by apply IH.
Qed.

Lemma has_id_other n m item :
  has_id n item = true → strict_eq n m = false → has_id m item = false.
Proof.
  intros ->%has_id_true. done.
Qed.

(** ** Records other than the addressed one *)

Lemma handle_find_other v e s r m :
  concerns s r m = false →
  find (has_id m) (inventory (handle v e s r).1)
  = find (has_id m) (inventory s).
Proof.
  intros Hother.
  destruct r as [name desc file| |n|n name desc|n|n file|n|n flag];
    simpl in *.
  - unfold post_register.
    pose proof (upload_single_inventory e s file) as Hinv.
    pose proof (upload_single_nextId e s file) as Hnext.
    destruct (upload_single e s file) as [s1 req_file]. simpl in *.
    destruct (truthy_opt name); simpl; [|by rewrite Hinv].
    rewrite find_app, Hinv. destruct (find _ (inventory s)); [done|].
    simpl. unfold has_id. simpl. by rewrite Hnext, Hother.
  - done.
  - unfold get_item. by case_find s n.
  - case_find s n; [|by rewrite put_item_missing].
    destruct (put_item_found e s n name desc item Hfind)
      as (k & _ & Hlk & ->). simpl.
    apply find_elem_of in Hfind as [_ Hid].
    eapply find_insert_other; [done| |]; by eapply has_id_other.
  - unfold get_photo. case_find s n; [|done].
    destruct (photo item) as [name|]; [|done].
    destruct (truthy name); simpl; [|done].
    by destruct (existsSync _ _ _).
  - case_find s n.
    + destruct (put_photo_found e s n file item Hfind)
        as (k & _ & Hlk & ->). simpl.
      apply find_elem_of in Hfind as [_ Hid].
      eapply find_insert_other; [done| |]; by eapply has_id_other.
    + rewrite put_photo_missing by done. simpl.
      by rewrite upload_single_inventory.
  - case_find s n; [|by rewrite delete_item_missing].
    destruct (delete_item_found e s n item Hfind) as (k & _ & Hlk & ->).
    simpl. apply find_elem_of in Hfind as [_ Hid].
    eapply find_delete_other; [done|]. by eapply has_id_other.
  - unfold post_search. by case_find s n.
Qed.

(** X1. A request leaves every id it does not concern as it was: what is
    found under such an id, and the answer of the item route for it, are the
    same after the request as before.  A registration concerns only the id
    it hands out; an update, a photo replacement and a deletion concern only
    the id they are addressed to; the reading routes concern none. *)
Theorem other_records_untouched (v : Variant) (e : Env) (s : State)
    (r : Request) (m : jsnum)
    (Hother : concerns s r m = false) :
  let s' := (handle v e s r).1 in
  find (has_id m) (inventory s') = find (has_id m) (inventory s)
  ∧ (handle v e s' (GetItem m)).2 = (handle v e s (GetItem m)).2.
Proof.
  simpl. pose proof (handle_find_other v e s r m Hother) as Hsame.
  split; [done|]. unfold get_item. rewrite Hsame.
  by destruct (find (has_id m) (inventory s)).
Qed.

Lemma other_records_untouched_witness :
  concerns one_photo (DeleteItem (Num 2)) (Num 1) = false
  ∧ (handle Express local_env
       (handle Express local_env one_photo (DeleteItem (Num 2))).1
       (GetItem (Num 1))).2
    = (handle Express local_env one_photo (GetItem (Num 1))).2.
Proof.
  split; [reflexivity|].
  exact (proj2 (other_records_untouched Express local_env one_photo
                  (DeleteItem (Num 2)) (Num 1) eq_refl)).
Defined.

(** ** Reading back what was registered *)

Lemma find_fresh_id (l : list Item) (next : Z) (item : Item) :
  Forall (λ i, 1 ≤ id i < next) l → id item = next →
  find (has_id (Num next)) (l ++ [item]) = Some item.
Proof.
  intros Hl Hid. rewrite find_app.
  assert (find (has_id (Num next)) l = None) as ->.
  { apply find_None_Forall. eapply Forall_impl; [exact Hl|].
    intros i Hi. simpl in Hi. unfold has_id, strict_eq.
    apply Z.eqb_neq. lia. }
  simpl. unfold has_id, strict_eq. by rewrite Hid, Z.eqb_refl.
Qed.

(** X2. In a state the server can reach, a registration that is accepted
    can be read back at once: the item route, asked for the id that was
    just handed out, answers 200 with exactly the record the registration
    answered with, decorated with its photo reference. *)
Theorem get_after_create (v : Variant) (e : Env) (s : State)
    (name desc : option string) (file : option Upload)
    (Hreach : reachable v e s)
    (Hname : truthy_opt name = true) :
  let r := handle v e s (PostRegister name desc file) in
  ∃ item,
    r.2 = {| status := 201;
             body := JItem "Item registered successfully" item |}
    ∧ id item = nextId s
    ∧ handle v e r.1 (GetItem (Num (id item)))
      = (r.1, {| status := 200; body := JView (with_photo_url e item) |}).
Proof.
  simpl. apply reachable_wf in Hreach as Hwf. unfold post_register.
  pose proof (upload_single_inventory e s file) as Hinv.
  pose proof (upload_single_nextId e s file) as Hnext.
  destruct (upload_single e s file) as [s1 req_file]. simpl in *.
  rewrite Hname. simpl. eexists. split; [done|]. simpl.
  split; [done|]. unfold get_item. simpl.
  rewrite find_fresh_id; [done| |done].
  rewrite Hinv, Hnext. apply (wf_ids _ Hwf).
Qed.

Lemma get_after_create_witness :
  reachable Express local_env one_photo
  ∧ ∃ item,
      id item = 2
      ∧ (handle Express local_env
           (handle Express local_env one_photo
              (PostRegister (Some "Mouse") None None)).1
           (GetItem (Num 2))).2
        = {| status := 200; body := JView (with_photo_url local_env item) |}.
Proof.
  split; [apply one_photo_reachable|].
  destruct (get_after_create Express local_env one_photo (Some "Mouse")
              None None (one_photo_reachable Express) eq_refl)
    as (item & _ & Hid & Hget).
  exists item. split; [exact Hid|].
  change 2 with (nextId one_photo). rewrite <-Hid. by rewrite Hget.
Defined.

(** X3. In a state the server can reach, a photo sent with an accepted
    registration can be read back at once: the photo route, asked for the
    new id, answers 200 with exactly the uploaded bytes, provided the route
    reads the blob from the file it is stored in and the path it reads
    from passes the checks of [res.sendFile] (it is absolute and has no
    NUL byte, no [..] segment, no dot file and no trailing separator). *)
Theorem photo_after_create (v : Variant) (e : Env) (s : State)
    (name desc : option string) (f : Upload)
    (Hreach : reachable v e s)
    (Hname : truthy_opt name = true)
    (Hpath : readBlobFile v e (filename f) = blobFile e (filename f))
    (Hsend : sendable (photoReadPath v e (filename f)) = true) :
  let r := handle v e s (PostRegister name desc (Some f)) in
  (handle v e r.1 (GetPhoto (Num (nextId s)))).2
  = {| status := 200; body := JFile "image/jpeg" (content f) |}.
Proof.
  simpl. apply reachable_wf in Hreach as Hwf. unfold post_register.
  simpl. rewrite Hname. simpl. unfold get_photo. simpl.
  rewrite find_fresh_id; [|apply (wf_ids _ Hwf)|done]. simpl.
  rewrite filename_truthy. simpl.
  rewrite sendFile_sendable by done.
  unfold existsSync, readFile, writeFile. simpl.
  fold (readBlobFile v e (filename f)). rewrite Hpath.
  fold (blobFile e (filename f)). by rewrite lookup_insert_eq.
Qed.

Lemma photo_after_create_witness :
  reachable Express local_env one_photo
  ∧ (handle Express local_env
       (handle Express local_env one_photo
          (PostRegister (Some "Mouse") None (Some later_upload))).1
       (GetPhoto (Num 2))).2
    = {| status := 200; body := JFile "image/jpeg" [Byte.x59] |}.
Proof.
  split; [apply one_photo_reachable|].
  exact (photo_after_create Express local_env one_photo (Some "Mouse") None
           later_upload (one_photo_reachable Express) eq_refl eq_refl
           eq_refl).
Defined.

(** ** Identifiers are not reused *)

Lemma strict_eq_true (a b : jsnum) : strict_eq a b = true → a = b.
Proof.
  destruct a as [|x], b as [|y]; simpl; try done.
  by intros ->%Z.eqb_eq.
Qed.

Lemma handle_nextId_mono v e s r : nextId s ≤ nextId (handle v e s r).1.
Proof. destruct (handle_created v e s r) as [[_ ->]|[_ ->]]; lia. Qed.

Lemma absent_id_step v e s r z :
  z < nextId s → find (has_id (Num z)) (inventory s) = None →
  find (has_id (Num z)) (inventory (handle v e s r).1) = None.
Proof.
  intros Hlt Habs.
  destruct (concerns s r (Num z)) eqn:Hc.
  - destruct r as [name desc file| |n|n name desc|n|n file|n|n flag];
      simpl in Hc; try done.
    + apply Z.eqb_eq in Hc. lia.
    + apply strict_eq_true in Hc as ->. simpl.
      by rewrite put_item_missing.
    + apply strict_eq_true in Hc as ->. simpl.
      rewrite put_photo_missing by done. simpl.
      by rewrite upload_single_inventory.
    + apply strict_eq_true in Hc as ->. simpl.
      by rewrite delete_item_missing.
  - by rewrite handle_find_other.
Qed.

(** X4. An identifier below the counter under which no record is found
    (one that was handed out and whose record was deleted) is never found
    again: whatever requests follow, no record carries it, and the item
    route keeps answering 404 for it. *)
Theorem absent_id_stays_absent (v : Variant) (e : Env) (s : State) (z : Z)
    (rs : list Request)
    (Hbelow : z < nextId s)
    (Habsent : find (has_id (Num z)) (inventory s) = None) :
  let s' := (serve v e s rs).1 in
  find (has_id (Num z)) (inventory s') = None
  ∧ (handle v e s' (GetItem (Num z))).2 = item_not_found.
Proof.
  simpl.
  assert (find (has_id (Num z)) (inventory (serve v e s rs).1) = None)
    as Hnone.
  { revert s Hbelow Habsent.
    induction rs as [|r rs IH]; intros s Hbelow Habsent; simpl; [done|].
    pose proof (absent_id_step v e s r z Hbelow Habsent) as Hstep.
    pose proof (handle_nextId_mono v e s r) as Hmono.
    destruct (handle v e s r) as [s1 resp]. simpl in *.
    specialize (IH s1). destruct (serve v e s1 rs) as [s2 resps].
    simpl in *. apply IH; [lia|done]. }
  split; [done|]. unfold get_item. by rewrite Hnone.
Qed.

Lemma absent_id_stays_absent_witness :
  1 < nextId (handle Express local_env one_photo (DeleteItem (Num 1))).1
  ∧ find (has_id (Num 1))
      (inventory
         (serve Express local_env
            (handle Express local_env one_photo (DeleteItem (Num 1))).1
            [PostRegister (Some "Mouse") None None;
             PostRegister (Some "Keyboard") None None]).1) = None.
Proof.
  assert (1 < nextId
                (handle Express local_env one_photo (DeleteItem (Num 1))).1)
    as Hlt by (vm_compute; reflexivity).
  split; [exact Hlt|].
  exact (proj1 (absent_id_stays_absent Express local_env _ 1
                  [PostRegister (Some "Mouse") None None;
                   PostRegister (Some "Keyboard") None None]
                  Hlt eq_refl)).
Defined.

(** ** Updates compose *)

Lemma item_eta (i : Item) :
  {| id := id i; inventory_name := inventory_name i;
     description := description i; photo := photo i |} = i.
Proof. by destruct i. Qed.

Lemma state_eta (s : State) :
  {| inventory := inventory s; nextId := nextId s; disk := disk s |} = s.
Proof. by destruct s. Qed.

(** X5. The update route is idempotent: sending the same update a second
    time changes nothing and gets the same answer as the first time.  An
    update that sends neither field leaves the state as it is. *)
Theorem update_idempotent (v : Variant) (e : Env) (s : State) (n : jsnum)
    (name desc : option string) :
  let r := handle v e s (PutItem n name desc) in
  handle v e r.1 (PutItem n name desc) = r
  ∧ (handle v e s (PutItem n None None)).1 = s.
Proof.
  simpl. case_find s n.
  - destruct (put_item_found e s n name desc item Hfind)
      as (k & Hk & Hlk & Heq).
    destruct (put_item_found e s n None None item Hfind)
      as (k0 & Hk0 & _ & Heq0).
    assert (k0 = k) as -> by congruence.
    rewrite Heq, Heq0. simpl. split.
    + set (item' := {| id := id item;
                       inventory_name := default (inventory_name item) name;
                       description := default (description item) desc;
                       photo := photo item |}).
      assert (has_id n item' = true) as Hid.
      { apply has_id_true. simpl.
        by apply has_id_true, (find_elem_of _ _ _ Hfind). }
      destruct (find_insert (has_id n) (inventory s) k item' Hk Hid)
        as [Hfind' Hk'].
      unfold put_item. simpl. rewrite Hfind', Hk'.
      rewrite list_insert_insert_eq. subst item'.
      by destruct name, desc.
    + rewrite item_eta, list_insert_id by done. apply state_eta.
  - rewrite (put_item_missing e s n name desc Hfind),
      (put_item_missing e s n None None Hfind). simpl.
    by rewrite put_item_missing.
Qed.

(** ** Search and item route agree *)

(** X6. The search route and the item route answer alike: both answer 404
    exactly when no record has the id; for a record that is found, the
    search answer carries the record's id and name and the same photo
    reference as the item route, and its description is the stored one,
    followed by the bracketed photo reference only when the flag is the
    string [true] and the record has a photo. *)
Theorem search_agrees_with_get (v : Variant) (e : Env) (s : State)
    (n : jsnum) (has_photo : option string) :
  let g := (handle v e s (GetItem n)).2 in
  let r := (handle v e s (PostSearch n has_photo)).2 in
  match find (has_id n) (inventory s) with
  | None => g = item_not_found ∧ r = item_not_found
  | Some item =>
      g = {| status := 200; body := JView (with_photo_url e item) |}
      ∧ ∃ res,
          r = {| status := 200; body := JSearch res |}
          ∧ result_id res = id item
          ∧ result_inventory_name res = inventory_name item
          ∧ result_photo_url res = view_photo_url (with_photo_url e item)
          ∧ (result_description res = description item
             ∨ (has_photo = Some "true"
                ∧ ∃ url, result_photo_url res = Some url
                   ∧ result_description res
                     = description item +:+ " [Фото: " +:+ url +:+ "]"))
  end.
Proof.
  simpl. rewrite post_search_eq. unfold get_item. simpl.
  case_find s n; [|done]. split; [done|].
  eexists. split; [done|]. simpl. do 3 (split; [done|]).
  unfold photo_url.
  destruct (bool_decide (has_photo = Some "true")) eqn:Hflag; simpl;
    [|by left].
  destruct (truthy_opt (photo item)); [|by left].
  right. apply bool_decide_eq_true in Hflag. split; [done|]. by eexists.
Qed.

(** ** The inventory in terms of the answers given *)

Lemma filter_ext_in {A} (P Q : A → Prop) `{∀ x, Decision (P x)}
    `{∀ x, Decision (Q x)} (l : list A) :
  (∀ x, x ∈ l → (P x ↔ Q x)) → filter P l = filter Q l.
Proof.
  induction l as [|a l IH]; intros Hext; [done|].
  assert (filter P l = filter Q l) as Hl.
  { apply IH. intros x Hx. apply Hext. by right. }
  pose proof (Hext a (list_elem_of_here _ _)) as Ha.
  destruct (decide (P a)) as [HP|HP].
  - rewrite !filter_cons_True by tauto. by rewrite Hl.
  - rewrite !filter_cons_False by tauto. done.
Qed.

Lemma filter_all {A} (P : A → Prop) `{∀ x, Decision (P x)} (l : list A) :
  (∀ x, x ∈ l → P x) → filter P l = l.
Proof.
  induction l as [|a l IH]; intros Hall; [done|].
  rewrite filter_cons_True by (apply Hall; by left).
  f_equal. apply IH. intros x Hx. apply Hall. by right.
Qed.

Lemma delete_filter_NoDup (l : list Z) (k : nat) (z : Z) :
  NoDup l → l !! k = Some z → delete k l = filter (λ y, y ≠ z) l.
Proof.
  revert k. induction l as [|a l IH]; intros k Hnd Hk; [done|].
  apply NoDup_cons in Hnd as [Ha Hnd]. destruct k as [|k]; simpl in *.
  - injection Hk as ->. rewrite filter_cons_False by (by intros []).
    symmetry. apply filter_all. by intros x Hx ->.
  - assert (a ≠ z) as Hne.
    { intros ->. apply Ha. by eapply list_elem_of_lookup_2. }
    rewrite filter_cons_True by done. f_equal. by apply IH.
Qed.

(** What one request does to the list of ids in the inventory. *)
Lemma handle_ids v e s r :
  wf s →
  let s1 := (handle v e s r).1 in
  let resp := (handle v e s r).2 in
  (created_id resp = Some (nextId s) ∧ deleted_id resp = None
   ∧ id <$> inventory s1 = ((id <$> inventory s) ++ [nextId s])%list)
  ∨ (created_id resp = None
     ∧ ∃ z, deleted_id resp = Some z ∧ z < nextId s
            ∧ id <$> inventory s1
              = filter (λ y, y ≠ z) (id <$> inventory s))
  ∨ (created_id resp = None ∧ deleted_id resp = None
     ∧ id <$> inventory s1 = id <$> inventory s).
Proof.
  intros Hwf.
  destruct r as [name desc file| |n|n name desc|n|n file|n|n flag]; simpl.
  - unfold post_register.
    pose proof (upload_single_inventory e s file) as Hinv.
    pose proof (upload_single_nextId e s file) as Hnext.
    destruct (upload_single e s file) as [s1 req_file]. simpl in *.
    destruct (truthy_opt name); simpl.
    + left. by rewrite fmap_app, Hinv, Hnext.
    + right; right. by rewrite Hinv.
  - by right; right.
  - right; right. unfold get_item. by case_find s n.
  - right; right. case_find s n; [|by rewrite put_item_missing].
    destruct (put_item_found e s n name desc item Hfind)
      as (k & _ & Hlk & ->). simpl.
    split; [done|]. split; [done|].
    rewrite list_fmap_insert. simpl.
    apply list_insert_id. by rewrite list_lookup_fmap, Hlk.
  - right; right. unfold get_photo. case_find s n; [|done].
    destruct (photo item) as [name|]; [|done].
    destruct (truthy name); simpl; [|done].
    destruct (existsSync _ _ _); simpl; [|done].
    by rewrite sendFile_created, sendFile_deleted.
  - right; right. case_find s n.
    + destruct (put_photo_found e s n file item Hfind)
        as (k & _ & Hlk & ->). simpl.
      split; [done|]. split; [done|].
      rewrite list_fmap_insert. simpl.
      apply list_insert_id. by rewrite list_lookup_fmap, Hlk.
    + rewrite put_photo_missing by done. simpl.
      by rewrite upload_single_inventory.
  - case_find s n; [|by right; right; rewrite delete_item_missing].
    right; left.
    destruct (delete_item_found e s n item Hfind) as (k & _ & Hlk & ->).
    simpl. split; [done|]. exists (id item).
    apply find_elem_of in Hfind as [_ ->%has_id_true].
    split; [done|]. split.
    + by apply (proj1 (Forall_lookup _ _) (wf_ids _ Hwf) k item).
    + rewrite list_fmap_delete. apply delete_filter_NoDup.
      * apply (wf_nodup _ Hwf).
      * by rewrite list_lookup_fmap, Hlk.
  - right; right. unfold post_search. by case_find s n.
Qed.

Lemma serve_ids v e s rs :
  wf s →
  let run := serve v e s rs in
  id <$> inventory run.1
  = filter (λ z, z ∉ deleted_ids run.2)
      ((id <$> inventory s) ++ created_ids run.2)%list.
Proof.
  revert s. induction rs as [|r rs IH]; intros s Hwf; simpl.
  - rewrite app_nil_r. symmetry. apply filter_all.
    intros x _. apply not_elem_of_nil.
  - pose proof (handle_ids v e s r Hwf) as Hstep.
    pose proof (wf_handle v e s r Hwf) as Hwf1.
    pose proof (handle_nextId_mono v e s r) as Hmono.
    destruct (handle v e s r) as [s1 resp]. simpl in *.
    specialize (IH s1 Hwf1).
    pose proof (serve_created_ids v e s1 rs) as [Hseq _].
    destruct (serve v e s1 rs) as [s2 resps]. simpl in *.
    unfold created_ids, deleted_ids in *. simpl.
    destruct Hstep as [(-> & -> & Hids)|[(-> & z & -> & Hz & Hids)
                                        |(-> & -> & Hids)]].
    + by rewrite IH, Hids, <-app_assoc.
    + rewrite IH, Hids, !filter_app, list_filter_filter. f_equal.
      * apply filter_ext_in. intros x _. rewrite not_elem_of_cons. tauto.
      * apply filter_ext_in. intros x Hx. rewrite not_elem_of_cons.
        rewrite Hseq in Hx. apply elem_of_seqZ in Hx. split; [|tauto].
        intros Hnot. split; [lia|done].
    + by rewrite IH, Hids.
Qed.

Lemma StronglySorted_filter_lt (P : Z → Prop) `{∀ x, Decision (P x)}
    (l : list Z) :
  StronglySorted Z.lt l → StronglySorted Z.lt (filter P l).
Proof.
  induction 1 as [|a l Hl IH Ha]; [constructor|].
  destruct (decide (P a)).
  - rewrite filter_cons_True by done. constructor; [done|].
    apply Forall_forall. intros x [_ Hx]%list_elem_of_filter.
    by apply (proj1 (Forall_forall _ _) Ha).
  - by rewrite filter_cons_False by done.
Qed.

Lemma view_ids e (l : list Item) :
  (λ w, id (view_item w)) <$> map (with_photo_url e) l = id <$> l.
Proof. induction l as [|a l IH]; [done|]. simpl. f_equal. exact IH. Qed.

(** X7. Along every run from server start, whatever files the cache
    directory holds, the records in the inventory are exactly those that
    were created and not deleted, in the order of their creation: the list
    of their ids is the list of the ids handed out by 201 answers without
    the ids confirmed by 200 answers of the delete route.  The ids in the
    inventory are strictly increasing, and the list route answers with one
    entry per record in this order. *)
Theorem inventory_is_created_minus_deleted (v : Variant) (e : Env)
    (d : gmap string (list Byte.byte)) (rs : list Request) :
  let run := serve v e (start d) rs in
  id <$> inventory run.1
  = filter (λ z, z ∉ deleted_ids run.2) (created_ids run.2)
  ∧ StronglySorted Z.lt (id <$> inventory run.1)
  ∧ ∃ views,
      (handle v e run.1 GetInventory).2
      = {| status := 200; body := JList views |}
      ∧ (λ w, id (view_item w)) <$> views = id <$> inventory run.1.
Proof.
  intros run.
  pose proof (serve_ids v e (start d) rs (wf_start d)) as Hids.
  fold run in Hids.
  simpl in Hids. split; [done|]. split.
  - rewrite Hids. apply StronglySorted_filter_lt.
    destruct (serve_created_ids v e (start d) rs) as [Hseq _].
    fold run in Hseq.
    simpl in Hseq. rewrite Hseq. apply seqZ_sorted.
  - exists (map (with_photo_url e) (inventory run.1)). split; [done|].
    apply view_ids.
Qed.

(** ** Files a request leaves alone *)

(** X8. A request changes the disk only at the files it touches: the
    storage location of the file it uploads and, for a photo replacement
    or a deletion that finds its record, the blob of that record.  Every
    other file is the same after the request as before. *)
Theorem untouched_files_unchanged (v : Variant) (e : Env) (s : State)
    (r : Request) (p : string)
    (Hp : p ∉ touched_files e s r) :
  disk (handle v e s r).1 !! p = disk s !! p.
Proof.
  unfold touched_files in Hp. apply not_elem_of_app in Hp as [Hup Hold].
  assert (disk (upload_single e s (uploaded_file r)).1 !! p = disk s !! p)
    as Hupload.
  { rewrite upload_single_disk. destruct (uploaded_file r) as [f|]; [|done].
    apply lookup_insert_ne. intros <-. apply Hup. by left. }
  destruct r as [name desc file| |n|n name desc|n|n file|n|n flag];
    simpl in *.
  - unfold post_register.
    destruct (upload_single e s file) as [s1 req_file]. simpl in *.
    by destruct (truthy_opt name).
  - done.
  - unfold get_item. by case_find s n.
  - case_find s n; [|by rewrite put_item_missing].
    by destruct (put_item_found e s n name desc item Hfind)
      as (k & _ & _ & ->).
  - unfold get_photo. case_find s n; [|done].
    destruct (photo item) as [name|]; [|done].
    destruct (truthy name); simpl; [|done].
    by destruct (existsSync _ _ _).
  - case_find s n.
    + destruct (put_photo_found e s n file item Hfind)
        as (k & _ & _ & ->). simpl.
      rewrite remove_photo_lookup_ne; [done|].
      intros name Hname ->. apply Hold. rewrite Hname. by left.
    + by rewrite put_photo_missing.
  - case_find s n; [|by rewrite delete_item_missing].
    destruct (delete_item_found e s n item Hfind) as (k & _ & _ & ->).
    simpl. apply remove_photo_lookup_ne.
    intros name Hname ->. apply Hold. rewrite Hname. by left.
  - unfold post_search. by case_find s n.
Qed.

Lemma untouched_files_unchanged_witness :
  ¬ ("/var/cache/inventory/1700000000000-laptop.jpg"
       ∈ touched_files local_env one_photo
           (PostRegister (Some "") None (Some later_upload)))
  ∧ disk (handle Express local_env one_photo
            (PostRegister (Some "") None (Some later_upload))).1
      !! "/var/cache/inventory/1700000000000-laptop.jpg"
    = Some [Byte.x4a; Byte.x46].
Proof.
  assert (¬ ("/var/cache/inventory/1700000000000-laptop.jpg"
               ∈ touched_files local_env one_photo
                   (PostRegister (Some "") None (Some later_upload))))
    as Hp.
  { vm_compute. intros [[=]|[]%elem_of_nil]%elem_of_cons. }
  split; [exact Hp|].
  rewrite (untouched_files_unchanged Express local_env one_photo _ _ Hp).
  vm_compute. reflexivity.
Defined.

(** ** Photos that have their file *)

Lemma blob_files_middle e (l : list Item) (k : nat) (item : Item) :
  l !! k = Some item →
  blob_files e l
  = (blob_files e (take k l) ++ blob_files e [item]
     ++ blob_files e (drop (S k) l))%list
  ∧ (∀ y, blob_files e (<[k := y]> l)
          = (blob_files e (take k l) ++ blob_files e [y]
             ++ blob_files e (drop (S k) l))%list)
  ∧ blob_files e (delete k l)
    = (blob_files e (take k l) ++ blob_files e (drop (S k) l))%list.
Proof.
  intros Hk. unfold blob_files. split; [|split].
  - rewrite <-(take_drop_middle l k item Hk) at 1.
    rewrite omap_app. f_equal. apply (omap_app _ [item]).
  - intros y. rewrite insert_take_drop by (by eapply lookup_lt_Some).
    rewrite omap_app. f_equal. apply (omap_app _ [y]).
  - by rewrite delete_take_drop, omap_app.
Qed.

Lemma blob_files_elem e (l : list Item) (item : Item) (name : string) :
  item ∈ l → photo item = Some name → blobFile e name ∈ blob_files e l.
Proof.
  intros Hin Hname. apply list_elem_of_omap. exists item.
  split; [done|]. by rewrite Hname.
Qed.

(** Replacing the blob of one record by a new one (or by none) keeps the
    others: [o] is the old blob, [n] the new one, each a list of at most
    one file. *)
Lemma blobs_replace (d d' : gmap string (list Byte.byte))
    (B1 o n B2 : list string) :
  NoDup (B1 ++ o ++ B2) →
  Forall (λ p, is_Some (d !! p)) (B1 ++ o ++ B2) →
  (∀ p, p ∉ o → is_Some (d !! p) → is_Some (d' !! p)) →
  NoDup n →
  Forall (λ p, d !! p = None ∧ is_Some (d' !! p)) n →
  NoDup (B1 ++ n ++ B2)
  ∧ Forall (λ p, is_Some (d' !! p)) (B1 ++ n ++ B2).
Proof.
  intros Hnd Hall Hkeep Hn Hnew.
  apply NoDup_app in Hnd as (HB1 & H1 & Hnd).
  apply NoDup_app in Hnd as (Ho & H2 & HB2).
  apply Forall_app in Hall as (A1 & Hall).
  apply Forall_app in Hall as (Ao & A2).
  rewrite Forall_forall in A1, Ao, A2, Hnew.
  split.
  - apply NoDup_app. split; [done|]. split.
    + intros x Hx [Hxn|Hx2]%elem_of_app.
      * destruct (Hnew x Hxn) as [Hnone _].
        destruct (A1 x Hx) as [? Hsome]. congruence.
      * apply (H1 x Hx). apply elem_of_app. by right.
    + apply NoDup_app. split; [done|]. split; [|done].
      intros x Hxn Hx2. destruct (Hnew x Hxn) as [Hnone _].
      destruct (A2 x Hx2) as [? Hsome]. congruence.
  - rewrite !Forall_app. split; [|split]; apply Forall_forall; intros x Hx.
    + apply Hkeep; [|by apply A1]. intros Hxo.
      apply (H1 x Hx). apply elem_of_app. by left.
    + by apply Hnew.
    + apply Hkeep; [|by apply A2]. intros Hxo. by apply (H2 x Hxo).
Qed.

Lemma insert_keeps_present (d : gmap string (list Byte.byte)) q bytes p :
  is_Some (d !! p) → is_Some (<[q := bytes]> d !! p).
Proof. intros H. apply lookup_insert_is_Some'. by right. Qed.

Lemma upload_keeps_present e s file p :
  is_Some (disk s !! p) → is_Some (disk (upload_single e s file).1 !! p).
Proof.
  rewrite upload_single_disk. destruct file; [|done].
  apply insert_keeps_present.
Qed.

Lemma blobs_present_handle v e s r :
  wf s → blobs_present e s →
  (∀ f, uploaded_file r = Some f →
        disk s !! blobFile e (filename f) = None) →
  blobs_present e (handle v e s r).1.
Proof.
  intros Hwf [Hnd Hall] Hfresh.
  destruct r as [name desc file| |n|n name desc|n|n file|n|n flag];
    simpl in *.
  - unfold post_register.
    pose proof (upload_single_inventory e s file) as Hinv.
    pose proof (upload_single_disk e s file) as Hdisk.
    pose proof (upload_single_name e s file) as Hfile.
    pose proof (upload_keeps_present e s file) as Hkeep.
    destruct (upload_single e s file) as [s1 req_file]. simpl in *.
    destruct (truthy_opt name); simpl.
    + unfold blobs_present. simpl. rewrite Hinv.
      unfold blob_files in *. rewrite omap_app.
      rewrite <-(app_nil_r (omap _ [_])).
      rewrite <-(app_nil_r (omap _ (inventory s))) in Hnd, Hall.
      apply (blobs_replace (disk s) (disk s1) _ [] _ []);
        [done|done| | |].
      * intros p _. apply Hkeep.
      * simpl. destruct req_file; simpl; [apply NoDup_singleton|constructor].
      * simpl. subst req_file. destruct file as [f|]; simpl; [|done].
        apply Forall_singleton. split; [by apply Hfresh|].
        rewrite Hdisk, lookup_insert_eq. by eexists.
    + split; simpl; rewrite Hinv; [done|].
      eapply Forall_impl; [exact Hall|]. apply Hkeep.
  - done.
  - unfold get_item. by case_find s n.
  - case_find s n; [|by rewrite put_item_missing].
    destruct (put_item_found e s n name desc item Hfind)
      as (k & _ & Hlk & ->). simpl.
    destruct (blob_files_middle e (inventory s) k item Hlk)
      as (Hsplit & Hins & _).
    unfold blobs_present. simpl.
    set (item' := {| id := id item;
                     inventory_name := default (inventory_name item) name;
                     description := default (description item) desc;
                     photo := photo item |}).
    assert (blob_files e [item'] = blob_files e [item]) as Heq by done.
    by rewrite Hins, Heq, <-Hsplit.
  - unfold get_photo. case_find s n; [|done].
    destruct (photo item) as [name|]; [|done].
    destruct (truthy name); simpl; [|done].
    by destruct (existsSync _ _ _).
  - case_find s n.
    + destruct (put_photo_found e s n file item Hfind)
        as (k & _ & Hlk & ->). simpl.
      destruct (blob_files_middle e (inventory s) k item Hlk)
        as (Hsplit & Hins & _).
      unfold blobs_present. simpl. rewrite Hins. rewrite Hsplit in Hnd, Hall.
      apply (blobs_replace (disk s) _ _ (blob_files e [item]));
        [done|done| | |].
      * intros p Hp Hsome. rewrite remove_photo_lookup_ne.
        -- by apply upload_keeps_present.
        -- intros name Hname ->. apply Hp.
           unfold blob_files. simpl. rewrite Hname. by left.
      * unfold blob_files. simpl.
        destruct file; simpl; [apply NoDup_singleton|constructor].
      * unfold blob_files. simpl. destruct file as [f|]; simpl; [|done].
        apply Forall_singleton. pose proof (Hfresh f eq_refl) as Hnone.
        split; [done|]. rewrite remove_photo_lookup_ne.
        -- unfold writeFile. fold (blobFile e (filename f)).
           rewrite lookup_insert_eq. by eexists.
        -- intros name Hname Heq.
           assert (is_Some (disk s !! blobFile e name)) as [? Hsome].
           { apply (proj1 (Forall_forall _ _) Hall).
             rewrite !elem_of_app. right; left.
             unfold blob_files. simpl. rewrite Hname. by left. }
           congruence.
    + rewrite put_photo_missing by done. split; simpl;
        rewrite upload_single_inventory; [done|].
      eapply Forall_impl; [exact Hall|]. apply upload_keeps_present.
  - case_find s n; [|by rewrite delete_item_missing].
    destruct (delete_item_found e s n item Hfind) as (k & _ & Hlk & ->).
    simpl.
    destruct (blob_files_middle e (inventory s) k item Hlk)
      as (Hsplit & _ & Hdel).
    unfold blobs_present. simpl. rewrite Hdel. rewrite Hsplit in Hnd, Hall.
    apply (blobs_replace (disk s) _ _ (blob_files e [item]) []);
      [done|done| |constructor|constructor].
    intros p Hp Hsome. rewrite remove_photo_lookup_ne; [done|].
    intros name Hname ->. apply Hp.
    unfold blob_files. simpl. rewrite Hname. by left.
  - unfold post_search. by case_find s n.
Qed.

Lemma existsSync_false e d name :
  existsSync e d (storagePath e name) = false → d !! blobFile e name = None.
Proof.
  unfold existsSync, blobFile. by destruct (d !! _).
Qed.

Lemma blobs_present_serve v e s rs :
  wf s → blobs_present e s → fresh_uploads v e s rs = true →
  blobs_present e (serve v e s rs).1.
Proof.
  revert s. induction rs as [|r rs IH]; intros s Hwf Hpres Hfresh; simpl;
    [done|].
  simpl in Hfresh. apply andb_true_iff in Hfresh as [Hr Hrest].
  pose proof (wf_handle v e s r Hwf) as Hwf1.
  assert (blobs_present e (handle v e s r).1) as Hpres1.
  { apply blobs_present_handle; [done|done|]. intros f Hf.
    rewrite Hf in Hr. apply negb_true_iff in Hr.
    by apply existsSync_false. }
  destruct (handle v e s r) as [s1 resp]. simpl in *.
  specialize (IH s1 Hwf1 Hpres1 Hrest).
  by destruct (serve v e s1 rs).
Qed.

Lemma find_unique (l : list Item) (item : Item) :
  NoDup (id <$> l) → item ∈ l →
  find (has_id (Num (id item))) l = Some item.
Proof.
  induction l as [|a l IH]; [by intros _ ?%elem_of_nil|].
  rewrite fmap_cons, NoDup_cons. intros [Ha Hnd] Hin. simpl.
  destruct (has_id (Num (id item)) a) eqn:Hid.
  - apply has_id_true in Hid. injection Hid as Hid.
    apply elem_of_cons in Hin as [->|Hin]; [done|].
    exfalso. apply Ha. rewrite <-Hid. by apply list_elem_of_fmap_2.
  - apply elem_of_cons in Hin as [->|Hin]; [|by apply IH].
    unfold has_id, strict_eq in Hid. by rewrite Z.eqb_refl in Hid.
Qed.

(** X9. Along every run from server start, on whatever files the cache
    directory holds, in which each uploaded file gets a storage location
    where no file exists yet, no photo dangles: no two records share a blob
    file and every record that has a photo has its file on disk.  When the
    photo route reads that blob from the file it is stored in, by a path
    that passes the checks of [res.sendFile], it answers 200 with the
    bytes of that file. *)
Theorem fresh_uploads_no_dangling (v : Variant) (e : Env)
    (d : gmap string (list Byte.byte)) (rs : list Request)
    (Hfresh : fresh_uploads v e (start d) rs = true) :
  let s := (serve v e (start d) rs).1 in
  NoDup (blob_files e (inventory s))
  ∧ ∀ item name,
      item ∈ inventory s → photo item = Some name →
      ∃ bytes,
        readFile e (disk s) (storagePath e name) = Some bytes
        ∧ (readBlobFile v e name = blobFile e name →
           sendable (photoReadPath v e name) = true →
           (handle v e s (GetPhoto (Num (id item)))).2
           = {| status := 200; body := JFile "image/jpeg" bytes |}).
Proof.
  intros s.
  assert (wf s) as Hwf by apply wf_serve, wf_start.
  assert (blobs_present e s) as [Hnd Hall].
  { apply blobs_present_serve; [apply wf_start| |done].
    split; simpl; constructor. }
  split; [done|]. intros item name Hin Hname.
  pose proof (proj1 (Forall_forall _ _) Hall _
                (blob_files_elem e _ item name Hin Hname)) as [bytes Hb].
  exists bytes. split; [done|]. intros Hpath Hsend. simpl. unfold get_photo.
  rewrite (find_unique _ item (wf_nodup _ Hwf) Hin), Hname.
  rewrite (proj1 (Forall_forall _ _) (wf_photos _ Hwf) item Hin name Hname).
  simpl. rewrite sendFile_sendable by done.
  unfold existsSync, readFile.
  fold (readBlobFile v e name). rewrite Hpath, Hb. done.
Qed.

Lemma fresh_uploads_no_dangling_witness :
  fresh_uploads Express local_env init
    [PostRegister (Some "Laptop Asus") None (Some laptop_upload);
     PutPhoto (Num 1) (Some later_upload)] = true
  ∧ ∃ bytes,
      (handle Express local_env
         (serve Express local_env init
            [PostRegister (Some "Laptop Asus") None (Some laptop_upload);
             PutPhoto (Num 1) (Some later_upload)]).1
         (GetPhoto (Num 1))).2
      = {| status := 200; body := JFile "image/jpeg" bytes |}.
Proof.
  assert (fresh_uploads Express local_env init
            [PostRegister (Some "Laptop Asus") None (Some laptop_upload);
             PutPhoto (Num 1) (Some later_upload)] = true) as H
    by (vm_compute; reflexivity).
  split; [exact H|].
  destruct (proj2 (fresh_uploads_no_dangling Express local_env ∅ _ H)
              {| id := 1; inventory_name := "Laptop Asus"; description := "";
                 photo := Some "1700000001000-laptop.jpg" |}
              "1700000001000-laptop.jpg")
    as (bytes & _ & Hresp).
  - vm_compute. apply list_elem_of_here.
  - reflexivity.
  - exists bytes. apply Hresp; vm_compute; reflexivity.
Defined.

(** ** Names do not collide by accident *)

Lemma occurs_app (c : ascii) (a b : string) :
  occurs c (a +:+ b) = occurs c a || occurs c b.
Proof.
  induction a as [|d a IH]; simpl; [done|]. by rewrite IH, orb_assoc.
Qed.

(** Two strings cut at the first occurrence of a character. *)
Lemma split_at_char (c : ascii) (a b x y : string) :
  occurs c a = false → occurs c b = false →
  a +:+ String c x = b +:+ String c y → a = b ∧ x = y.
Proof.
  revert b. induction a as [|d a IH]; intros [|d' b]; simpl.
  - intros _ _ [= ->]. done.
  - intros _ [Hd _]%orb_false_iff [= <- _].
    by rewrite Ascii.eqb_refl in Hd.
  - intros [Hd _]%orb_false_iff _ [= -> _].
    by rewrite Ascii.eqb_refl in Hd.
  - intros [_ Ha]%orb_false_iff [_ Hb]%orb_false_iff [= -> Heq].
    destruct (IH b Ha Hb Heq) as [-> ->]. done.
Qed.

Lemma append_inj_l (a x y : string) : a +:+ x = a +:+ y → x = y.
Proof. induction a as [|c a IH]; simpl; [done|]. intros [= H]. auto. Qed.

Lemma occurs_sep (s : string) : occurs "/" s = path.hasSep s.
Proof. induction s as [|c s IH]; simpl; [done|]. by rewrite IH. Qed.

Lemma no_hyphen_string_of_uint (d : uint) :
  occurs "-" (NilEmpty.string_of_uint d) = false.
Proof. induction d; simpl; done. Qed.

Lemma no_hyphen_show_Z (z : Z) : 0 ≤ z → occurs "-" (show_Z z) = false.
Proof.
  intros Hz. unfold show_Z, NilZero.string_of_int, NilZero.string_of_uint.
  destruct z as [|p|p]; [done| |lia]. simpl.
  destruct (Pos.to_uint p); simpl; by rewrite ?no_hyphen_string_of_uint.
Qed.

Lemma show_Z_inj (a b : Z) : show_Z a = show_Z b → a = b.
Proof.
  unfold show_Z. intros Heq. apply DecimalZ.to_int_inj.
  assert (∀ z, NilZero.int_of_string (NilZero.string_of_int (Z.to_int z))
               = Some (Z.to_int z)) as Hback.
  { intros z. apply NilZero.isi; destruct z as [|p|p]; simpl; try done;
      intros [= H]; by apply DecimalPos.Unsigned.to_uint_nonnil in H. }
  pose proof (Hback a) as Ha. rewrite Heq, Hback in Ha. congruence.
Qed.

Lemma filename_inj (f1 f2 : Upload) :
  0 ≤ now f1 → 0 ≤ now f2 → filename f1 = filename f2 →
  now f1 = now f2 ∧ originalname f1 = originalname f2.
Proof.
  intros H1 H2 Heq. unfold filename in Heq.
  apply split_at_char in Heq as [Hnow Hname];
    [|by apply no_hyphen_show_Z..].
  split; [by apply show_Z_inj|done].
Qed.

Lemma resolveSegments_sep_free (cwd p : string) :
  Forall (λ seg, path.hasSep seg = false) (path.resolveSegments cwd p).
Proof.
  unfold path.resolveSegments, path.normalizeSegments.
  apply Forall_rev.
  eapply Forall_impl;
    [apply path_facts.fold_push_false_plain;
       [constructor|apply path_facts.Forall_segments]|].
  by intros seg (_ & _ & _ & ?).
Qed.

(** X10. Uploads overwrite one another only when they are named alike and
    arrive in the same millisecond: for clock readings that are not
    negative, two uploads get the same blob name only if their clock
    readings and their original names are equal; and when the original
    names contain no path separator, they are stored in the same file only
    in that case. *)
Theorem uploads_collide_only_when_same (e : Env) (f1 f2 : Upload)
    (H1 : 0 ≤ now f1) (H2 : 0 ≤ now f2) :
  (filename f1 = filename f2 →
   now f1 = now f2 ∧ originalname f1 = originalname f2)
  ∧ (path.hasSep (originalname f1) = false →
     path.hasSep (originalname f2) = false →
     blobFile e (filename f1) = blobFile e (filename f2) →
     now f1 = now f2 ∧ originalname f1 = originalname f2).
Proof.
  split; [by apply filename_inj|]. intros Hs1 Hs2 Heq.
  apply filename_inj; [done|done|].
  pose proof (filename_plain f1 Hs1) as Hp1.
  pose proof (filename_plain f2 Hs2) as Hp2.
  unfold blobFile, path.resolve, storagePath, destination in Heq.
  rewrite !path_facts.resolveSegments_join in Heq by done.
  injection Heq as Heq.
  assert (∀ l : list string,
            l ≠ [] → Forall (λ seg, path.hasSep seg = false) l →
            path.segments (path.joinWith "/" l) = l) as Hseg
    by apply path_facts.segments_joinWith.
  set (R := path.resolveSegments (cwd e) (cache (options e))) in *.
  assert (∀ n, path.hasSep n = false →
               path.segments (path.joinWith "/" (R ++ [n])) = (R ++ [n])%list)
    as Hback.
  { intros n Hn. apply Hseg; [by destruct R|].
    apply Forall_app. split; [apply resolveSegments_sep_free|].
    by apply Forall_singleton. }
  assert ((R ++ [filename f1])%list = (R ++ [filename f2])%list) as Hlist.
  { rewrite <-(Hback (filename f1)) by (by destruct Hp1 as (_ & _ & _ & ?)).
    rewrite <-(Hback (filename f2)) by (by destruct Hp2 as (_ & _ & _ & ?)).
    f_equal. exact Heq. }
  apply app_inv_head in Hlist. by injection Hlist.
Qed.

Lemma uploads_collide_only_when_same_witness :
  0 ≤ now laptop_upload ∧ 0 ≤ now later_upload
  ∧ blobFile local_env (filename laptop_upload)
    ≠ blobFile local_env (filename later_upload).
Proof.
  assert (0 ≤ now laptop_upload) as H1 by (vm_compute; discriminate).
  assert (0 ≤ now later_upload) as H2 by (vm_compute; discriminate).
  split; [exact H1|]. split; [exact H2|]. intros Heq.
  destruct (proj2 (uploads_collide_only_when_same local_env laptop_upload
                     later_upload H1 H2) eq_refl eq_refl Heq) as [Hnow _].
  vm_compute in Hnow. discriminate Hnow.
Defined.

(** ** Where the documented program reads photos *)

Lemma truthy_nonempty (s : string) : truthy s = true → s ≠ "".
Proof. by destruct s. Qed.

(** X11. When the documented program is started from its script directory
    with a cache directory given as a relative path, its photo route reads
    every blob from the file in which the upload middleware stores it. *)
Theorem swagger_reads_where_stored (e : Env) (name : string)
    (Hdir : dirname e = cwd e)
    (Habs : path.isAbsolute (cwd e) = true)
    (Hrel : path.isAbsolute (cache (options e)) = false)
    (Hcache : truthy (cache (options e)) = true)
    (Hname : truthy name = true) :
  readBlobFile Swagger e name = blobFile e name.
Proof.
  unfold readBlobFile, blobFile, path.resolve. do 2 f_equal.
  unfold photoReadPath, storagePath, destination, path.join.
  rewrite Hdir.
  assert (truthy (cwd e) = true) as Hcwd by (by destruct (cwd e)).
  rewrite !filter_cons_True by done. rewrite filter_nil.
  set (c := cache (options e)) in *. set (d := cwd e) in *.
  change (path.joinWith "/" [d; c; name])
    with (d +:+ String "/" (c +:+ String "/" name)).
  change (path.joinWith "/" [c; name]) with (c +:+ String "/" name).
  assert (c +:+ String "/" name ≠ "") as Hne1.
  { apply truthy_nonempty in Hcache. by destruct c. }
  assert (d +:+ String "/" (c +:+ String "/" name) ≠ "") as Hne2.
  { by destruct d. }
  rewrite !path_facts.resolveSegments_normalize by done.
  unfold path.resolveSegments.
  assert (path.isAbsolute (d +:+ String "/" (c +:+ String "/" name))
          = true) as ->.
  { destruct d; [done|]. exact Habs. }
  assert (path.isAbsolute (c +:+ String "/" name) = false) as ->.
  { destruct c; [done|]. exact Hrel. }
  done.
Qed.

Lemma swagger_reads_where_stored_witness :
  readBlobFile Swagger script_dir_env "1700000000000-laptop.jpg"
  = "/srv/app/cache/1700000000000-laptop.jpg"
  ∧ blobFile script_dir_env "1700000000000-laptop.jpg"
    = "/srv/app/cache/1700000000000-laptop.jpg".
Proof.
  rewrite (swagger_reads_where_stored script_dir_env
             "1700000000000-laptop.jpg" eq_refl eq_refl eq_refl eq_refl
             eq_refl).
  split; vm_compute; reflexivity.
Defined.

(** ** The list route *)

Lemma photoUrl_inj e (i j : Item) : photoUrl e i = photoUrl e j → id i = id j.
Proof.
  unfold photoUrl. intros H. do 5 apply append_inj_l in H.
  apply (split_at_char "/" _ _ "photo" "photo") in H as [H _];
    [by apply show_Z_inj| |]; by rewrite occurs_sep, hasSep_show_Z.
Qed.

Lemma photo_url_Some e (i : Item) (u : string) :
  photo_url e i = Some u → u = photoUrl e i.
Proof. unfold photo_url. destruct (truthy_opt _); congruence. Qed.

Lemma view_urls_NoDup e (l : list Item) :
  NoDup (id <$> l) → NoDup (omap view_photo_url (map (with_photo_url e) l)).
Proof.
  induction l as [|a l IH]; [constructor|].
  rewrite fmap_cons, NoDup_cons. intros [Ha Hnd]. simpl.
  destruct (photo_url e a) as [u|] eqn:Hu; [|by apply IH].
  apply NoDup_cons. split; [|by apply IH].
  intros (w & Hw & Hwu)%list_elem_of_omap.
  apply list_elem_of_In, in_map_iff in Hw as (b & <- & Hb).
  apply list_elem_of_In in Hb. simpl in Hwu.
  apply photo_url_Some in Hu, Hwu. apply Ha.
  assert (id a = id b) as -> by (apply (photoUrl_inj e); congruence).
  by apply list_elem_of_fmap_2.
Qed.

Lemma view_items e (l : list Item) :
  view_item <$> map (with_photo_url e) l = l.
Proof. induction l as [|a l IH]; [done|]. simpl. f_equal. exact IH. Qed.

(** X12. In a state the server can reach, the list route changes nothing
    and answers 200 with one entry per record, in inventory order; an
    entry carries a photo reference exactly when its record has a photo,
    the reference names the record's own id, and no two entries carry the
    same reference. *)
Theorem list_decorates_each_record (v : Variant) (e : Env) (s : State)
    (Hreach : reachable v e s) :
  let r := handle v e s GetInventory in
  r.1 = s
  ∧ ∃ views,
      r.2 = {| status := 200; body := JList views |}
      ∧ view_item <$> views = inventory s
      ∧ Forall (λ w, view_photo_url w
                     = match photo (view_item w) with
                       | Some _ => Some (photoUrl e (view_item w))
                       | None => None
                       end) views
      ∧ NoDup (omap view_photo_url views).
Proof.
  simpl. apply reachable_wf in Hreach as Hwf. split; [done|].
  exists (map (with_photo_url e) (inventory s)).
  split; [done|]. split; [apply view_items|]. split.
  - apply Forall_forall. intros w Hw.
    apply list_elem_of_In, in_map_iff in Hw as (item & <- & Hin).
    apply list_elem_of_In in Hin. simpl. unfold photo_url.
    pose proof (proj1 (Forall_forall _ _) (wf_photos _ Hwf) item Hin) as Ht.
    simpl in Ht. destruct (photo item) as [name|]; [|done].
    simpl. by rewrite (Ht name eq_refl).
  - apply view_urls_NoDup, (wf_nodup _ Hwf).
Qed.

Lemma list_decorates_each_record_witness :
  reachable Express local_env one_photo
  ∧ (handle Express local_env one_photo GetInventory).1 = one_photo.
Proof.
  split; [apply one_photo_reachable|].
  exact (proj1 (list_decorates_each_record Express local_env one_photo
                  (one_photo_reachable Express))).
Defined.

(** ** Counting records *)

Lemma handle_count v e s r :
  let s1 := (handle v e s r).1 in
  let resp := (handle v e s r).2 in
  (length (inventory s1) + length (deleted_ids [resp])
   = length (inventory s) + length (created_ids [resp]))%nat.
Proof.
  destruct r as [name desc file| |n|n name desc|n|n file|n|n flag]; simpl.
  - unfold post_register.
    pose proof (upload_single_inventory e s file) as Hinv.
    destruct (upload_single e s file) as [s1 req_file]. simpl in *.
    destruct (truthy_opt name); simpl; rewrite Hinv; [|done].
    rewrite length_app. simpl. lia.
  - done.
  - unfold get_item. by case_find s n.
  - case_find s n; [|by rewrite put_item_missing].
    destruct (put_item_found e s n name desc item Hfind)
      as (k & _ & _ & ->). simpl. by rewrite length_insert.
  - unfold get_photo. case_find s n; [|done].
    destruct (photo item) as [name|]; [|done].
    destruct (truthy name); simpl; [|done].
    destruct (existsSync _ _ _); simpl; [|done].
    by rewrite sendFile_created, sendFile_deleted.
  - case_find s n.
    + destruct (put_photo_found e s n file item Hfind)
        as (k & _ & _ & ->). simpl. by rewrite length_insert.
    + rewrite put_photo_missing by done. simpl.
      by rewrite upload_single_inventory.
  - case_find s n; [|by rewrite delete_item_missing].
    destruct (delete_item_found e s n item Hfind) as (k & _ & Hlk & ->).
    simpl. apply find_elem_of in Hfind as [_ ->%has_id_true]. simpl.
    rewrite length_delete by done.
    apply lookup_lt_Some in Hlk. lia.
  - unfold post_search. by case_find s n.
Qed.

(** X13. Along every run from server start, whatever files the cache
    directory holds, the identifier counter is one more than the number
    of records created so far, and the number of records in the inventory
    is the number of records created minus the number of records
    deleted. *)
Theorem records_are_counted (v : Variant) (e : Env)
    (d : gmap string (list Byte.byte)) (rs : list Request) :
  let run := serve v e (start d) rs in
  nextId run.1 = 1 + Z.of_nat (length (created_ids run.2))
  ∧ (length (inventory run.1) + length (deleted_ids run.2)
     = length (created_ids run.2))%nat.
Proof.
  simpl. split; [apply (serve_created_ids v e (start d) rs)|].
  change (length (created_ids (serve v e (start d) rs).2))
    with (length (inventory (start d))
          + length (created_ids (serve v e (start d) rs).2))%nat.
  generalize (start d). induction rs as [|r rs IH]; intros s; simpl; [lia|].
  pose proof (handle_count v e s r) as Hstep.
  destruct (handle v e s r) as [s1 resp]. simpl in *.
  specialize (IH s1). destruct (serve v e s1 rs) as [s2 resps]. simpl in *.
  unfold created_ids, deleted_ids in *. simpl in *.
  destruct (created_id resp), (deleted_id resp); simpl in *; lia.
Qed.

(** ** Ids that no record has *)

Lemma find_out_of_range (s : State) (n : jsnum) :
  wf s →
  (n = NaN ∨ ∃ z, n = Num z ∧ (z < 1 ∨ nextId s ≤ z)) →
  find (has_id n) (inventory s) = None.
Proof.
  intros Hwf Hn. apply find_None_Forall.
  eapply Forall_impl; [exact (wf_ids _ Hwf)|]. simpl. intros i Hi.
  unfold has_id, strict_eq.
  destruct Hn as [->|(z & -> & Hz)]; [done|]. apply Z.eqb_neq. lia.
Qed.

(** X14. In a state the server can reach, an id that is not a number, is
    below 1, or is not below the identifier counter belongs to no record:
    every route addressed to it answers 404, and the state stays as it is
    (but for the file a photo replacement request brought along). *)
Theorem out_of_range_ids_not_found (v : Variant) (e : Env) (s : State)
    (n : jsnum)
    (Hreach : reachable v e s)
    (Hn : n = NaN ∨ ∃ z, n = Num z ∧ (z < 1 ∨ nextId s ≤ z)) :
  handle v e s (GetItem n) = (s, item_not_found)
  ∧ (∀ name desc, handle v e s (PutItem n name desc) = (s, item_not_found))
  ∧ handle v e s (GetPhoto n) = (s, item_not_found)
  ∧ (∀ file, (handle v e s (PutPhoto n file)).2 = item_not_found
             ∧ inventory (handle v e s (PutPhoto n file)).1 = inventory s)
  ∧ handle v e s (PutPhoto n None) = (s, item_not_found)
  ∧ handle v e s (DeleteItem n) = (s, item_not_found)
  ∧ (∀ flag, handle v e s (PostSearch n flag) = (s, item_not_found)).
Proof.
  apply reachable_wf in Hreach as Hwf.
  pose proof (find_out_of_range s n Hwf Hn) as Hnone. simpl.
  split; [unfold get_item; by rewrite Hnone|].
  split; [intros; by apply put_item_missing|].
  split; [unfold get_photo; by rewrite Hnone|].
  split.
  { intros file. rewrite put_photo_missing by done. simpl.
    split; [done|apply upload_single_inventory]. }
  split; [by rewrite put_photo_missing|].
  split; [by apply delete_item_missing|].
  intros flag. rewrite post_search_eq. by rewrite Hnone.
Qed.

Lemma out_of_range_ids_not_found_witness :
  reachable Express local_env one_photo
  ∧ handle Express local_env one_photo (DeleteItem (Num 2))
    = (one_photo, item_not_found).
Proof.
  split; [apply one_photo_reachable|].
  apply (out_of_range_ids_not_found Express local_env one_photo (Num 2)
           (one_photo_reachable Express)).
  right. exists 2. split; [reflexivity|]. right. vm_compute. discriminate.
Defined.

(** ** Where the files on disk come from *)

Lemma handle_disk_origin v e s r p bytes :
  disk (handle v e s r).1 !! p = Some bytes →
  disk s !! p = Some bytes
  ∨ ∃ f, uploaded_file r = Some f ∧ p = blobFile e (filename f)
         ∧ bytes = content f.
Proof.
  assert (disk (upload_single e s (uploaded_file r)).1 !! p = Some bytes →
          disk s !! p = Some bytes
          ∨ ∃ f, uploaded_file r = Some f ∧ p = blobFile e (filename f)
                 ∧ bytes = content f) as Hupload.
  { rewrite upload_single_disk. destruct (uploaded_file r) as [f|]; [|auto].
    destruct (decide (blobFile e (filename f) = p)) as [<-|Hne].
    - rewrite lookup_insert_eq. intros [= <-]. right. by exists f.
    - rewrite lookup_insert_ne by done. auto. }
  destruct r as [name desc file| |n|n name desc|n|n file|n|n flag];
    simpl in *.
  - unfold post_register.
    destruct (upload_single e s file) as [s1 req_file]. simpl in *.
    by destruct (truthy_opt name).
  - auto.
  - unfold get_item. case_find s n; auto.
  - case_find s n; [|rewrite put_item_missing by done; auto].
    destruct (put_item_found e s n name desc item Hfind)
      as (k & _ & _ & ->). auto.
  - unfold get_photo. case_find s n; [|auto].
    destruct (photo item) as [name|]; [|auto].
    destruct (truthy name); simpl; [|auto].
    destruct (existsSync _ _ _); auto.
  - case_find s n.
    + destruct (put_photo_found e s n file item Hfind)
        as (k & _ & _ & ->). simpl.
      intros Hp%remove_photo_lookup_Some. auto.
    + rewrite put_photo_missing by done. auto.
  - case_find s n; [|rewrite delete_item_missing by done; auto].
    destruct (delete_item_found e s n item Hfind) as (k & _ & _ & ->).
    simpl. intros Hp%remove_photo_lookup_Some. auto.
  - unfold post_search. case_find s n; auto.
Qed.

Lemma serve_disk_origin v e s rs p bytes :
  disk (serve v e s rs).1 !! p = Some bytes →
  disk s !! p = Some bytes
  ∨ ∃ f, f ∈ uploads_of rs ∧ p = blobFile e (filename f)
         ∧ bytes = content f.
Proof.
  revert s. induction rs as [|r rs IH]; intros s; simpl; [auto|].
  pose proof (handle_disk_origin v e s r p bytes) as Hstep.
  destruct (handle v e s r) as [s1 resp]. simpl in *.
  specialize (IH s1). destruct (serve v e s1 rs) as [s2 resps]. simpl in *.
  intros Hp. unfold uploads_of. simpl.
  destruct (IH Hp) as [H1|(f & Hf & ? & ?)].
  - destruct (Hstep H1) as [?|(f & Hf & ? & ?)]; [by left|right].
    exists f. rewrite Hf. split; [by left|done].
  - right. exists f. split; [|done].
    destruct (uploaded_file r); [by right|done].
Qed.

(** X15. Along every run from server start, on whatever files the cache
    directory holds, every file on disk is a file the directory held at
    start, unchanged, or was put there by the upload middleware: it lies at
    the storage location of a file sent with one of the requests of the run
    and holds exactly the bytes of that file.  The handlers write no file
    of their own. *)
Theorem disk_holds_only_uploads (v : Variant) (e : Env)
    (d : gmap string (list Byte.byte)) (rs : list Request)
    (p : string) (bytes : list Byte.byte)
    (Hp : disk (serve v e (start d) rs).1 !! p = Some bytes) :
  d !! p = Some bytes
  ∨ ∃ f, f ∈ uploads_of rs ∧ p = blobFile e (filename f)
         ∧ bytes = content f.
Proof. exact (serve_disk_origin v e (start d) rs p bytes Hp). Qed.

Lemma disk_holds_only_uploads_witness :
  disk (serve Express local_env (start used_directory)
          [PostRegister (Some "") None (Some laptop_upload)]).1
    !! "/var/cache/inventory/1700000000000-laptop.jpg"
  = Some [Byte.x4a; Byte.x46]
  ∧ ∃ f, f ∈ uploads_of [PostRegister (Some "") None (Some laptop_upload)]
         ∧ content f = [Byte.x4a; Byte.x46].
Proof.
  assert (disk (serve Express local_env (start used_directory)
                  [PostRegister (Some "") None (Some laptop_upload)]).1
            !! "/var/cache/inventory/1700000000000-laptop.jpg"
          = Some [Byte.x4a; Byte.x46]) as Hp by (vm_compute; reflexivity).
  split; [exact Hp|].
  destruct (disk_holds_only_uploads Express local_env _ _ _ _ Hp)
    as [Hd|(f & Hf & _ & Hc)].
  - vm_compute in Hd. discriminate Hd.
  - exists f. split; [exact Hf|]. symmetry. exact Hc.
Defined.
